(** * kd-rust: the tiered lookup, the SQLite cache and the legacy migration

    A shallow embedding of
    - [src/domain/model.rs]            : [QueryResult], [QuerySource], ...
    - [src/migration/legacy.rs]        : [LegacyResult] and the Collins block
    - [src/application/query.rs]       : [query_word]
    - [src/application/update.rs]      : [migrate_data] (per table), [convert_legacy]
    - [src/infrastructure/storage/db.rs] : [query_cache_impl], [insert_cache_impl],
                                           [batch_insert_cache_impl]

    Conventions.
    - Rust [String] is a Rocq [string] (a byte sequence), [Vec<u8>] is
      [list Byte.byte], [i64] is [Z], [usize] is [nat].
    - [Result<T, KdError>] is [Result T KdError]; [?] is the bind of the
      monads below.
    - A [HashMap] that the code only probes with [get] is a [gmap]; a
      [HashMap] that the code iterates is an association list in iteration
      order (the order Rust's [HashMap] yields is unspecified, so the model
      takes it as given). *)

From Stdlib Require Import String Ascii ZArith List Bool Lia.
From Stdlib Require Import DecimalZ.
From stdpp Require Import base gmap strings list.

Open Scope string_scope.

(* ------------------------------------------------------------------ *)
(** ** Errors and results *)

(** The [rusqlite::Error] variants the cache code produces. *)
Inductive SqliteError :=
| FromSqlConversionFailure (col : nat) (cause : string)
| SqliteFailure (cause : string).

(** [KdError] (src/domain/error.rs); the payloads are kept as strings. *)
Inductive KdError :=
| Database (e : SqliteError)        (* tokio_rusqlite::Error, wrapping rusqlite *)
| Sqlite (e : SqliteError)
| Http (cause : string)
| Json (cause : string)
| Io (cause : string)
| Compression (cause : string)
| Config (cause : string)
| Api (cause : string).

Inductive Result (A E : Type) : Type :=
| Ok (a : A)
| Err (e : E).
Arguments Ok {A E} a.
Arguments Err {A E} e.

Definition bytes := list Byte.byte.

(* ------------------------------------------------------------------ *)
(** ** Data model (src/domain/model.rs) *)

Inductive OnlineSource := Youdao | Bing | Google.

Inductive QuerySource :=
| OfflineDb
| LocalCache
| Online (s : OnlineSource).

(** [CollinsDisplayItem]; its [examples] field is [item_examples] here
    because Rocq record projections share one name space. *)
Record CollinsDisplayItem := mkCollinsDisplayItem {
  additional : option string;
  major_trans : option string;
  item_examples : list (string * string)
}.

Record QueryResult := mkQueryResult {
  query : string;
  found : bool;
  is_long_text : bool;
  pronunciation : option string;
  pronunciation_us : option string;
  pronunciation_uk : option string;
  translations : list string;
  examples : list (string * string);
  collins_items : list CollinsDisplayItem;
  collins_rank : option string;
  source : QuerySource;
  cached_at : option Z
}.

(** [QueryResult::new] *)
Definition QueryResult_new (q : string) (long : bool) : QueryResult :=
  {| query := q; found := false; is_long_text := long;
     pronunciation := None; pronunciation_us := None; pronunciation_uk := None;
     translations := []; examples := []; collins_items := [];
     collins_rank := None; source := Online Youdao; cached_at := None |}.

(** Field assignments [r.f = v] used by the code. *)
Definition set_found (r : QueryResult) (v : bool) : QueryResult :=
  {| query := query r; found := v; is_long_text := is_long_text r;
     pronunciation := pronunciation r; pronunciation_us := pronunciation_us r;
     pronunciation_uk := pronunciation_uk r; translations := translations r;
     examples := examples r; collins_items := collins_items r;
     collins_rank := collins_rank r; source := source r; cached_at := cached_at r |}.
Definition set_is_long_text (r : QueryResult) (v : bool) : QueryResult :=
  {| query := query r; found := found r; is_long_text := v;
     pronunciation := pronunciation r; pronunciation_us := pronunciation_us r;
     pronunciation_uk := pronunciation_uk r; translations := translations r;
     examples := examples r; collins_items := collins_items r;
     collins_rank := collins_rank r; source := source r; cached_at := cached_at r |}.
Definition set_source (r : QueryResult) (v : QuerySource) : QueryResult :=
  {| query := query r; found := found r; is_long_text := is_long_text r;
     pronunciation := pronunciation r; pronunciation_us := pronunciation_us r;
     pronunciation_uk := pronunciation_uk r; translations := translations r;
     examples := examples r; collins_items := collins_items r;
     collins_rank := collins_rank r; source := v; cached_at := cached_at r |}.
Definition set_cached_at (r : QueryResult) (v : option Z) : QueryResult :=
  {| query := query r; found := found r; is_long_text := is_long_text r;
     pronunciation := pronunciation r; pronunciation_us := pronunciation_us r;
     pronunciation_uk := pronunciation_uk r; translations := translations r;
     examples := examples r; collins_items := collins_items r;
     collins_rank := collins_rank r; source := source r; cached_at := v |}.
Definition set_pronunciation (r : QueryResult) (v : option string) : QueryResult :=
  {| query := query r; found := found r; is_long_text := is_long_text r;
     pronunciation := v; pronunciation_us := pronunciation_us r;
     pronunciation_uk := pronunciation_uk r; translations := translations r;
     examples := examples r; collins_items := collins_items r;
     collins_rank := collins_rank r; source := source r; cached_at := cached_at r |}.
Definition set_pronunciation_us (r : QueryResult) (v : option string) : QueryResult :=
  {| query := query r; found := found r; is_long_text := is_long_text r;
     pronunciation := pronunciation r; pronunciation_us := v;
     pronunciation_uk := pronunciation_uk r; translations := translations r;
     examples := examples r; collins_items := collins_items r;
     collins_rank := collins_rank r; source := source r; cached_at := cached_at r |}.
Definition set_pronunciation_uk (r : QueryResult) (v : option string) : QueryResult :=
  {| query := query r; found := found r; is_long_text := is_long_text r;
     pronunciation := pronunciation r; pronunciation_us := pronunciation_us r;
     pronunciation_uk := v; translations := translations r;
     examples := examples r; collins_items := collins_items r;
     collins_rank := collins_rank r; source := source r; cached_at := cached_at r |}.
Definition set_translations (r : QueryResult) (v : list string) : QueryResult :=
  {| query := query r; found := found r; is_long_text := is_long_text r;
     pronunciation := pronunciation r; pronunciation_us := pronunciation_us r;
     pronunciation_uk := pronunciation_uk r; translations := v;
     examples := examples r; collins_items := collins_items r;
     collins_rank := collins_rank r; source := source r; cached_at := cached_at r |}.
Definition set_examples (r : QueryResult) (v : list (string * string)) : QueryResult :=
  {| query := query r; found := found r; is_long_text := is_long_text r;
     pronunciation := pronunciation r; pronunciation_us := pronunciation_us r;
     pronunciation_uk := pronunciation_uk r; translations := translations r;
     examples := v; collins_items := collins_items r;
     collins_rank := collins_rank r; source := source r; cached_at := cached_at r |}.
Definition set_collins_items (r : QueryResult) (v : list CollinsDisplayItem) : QueryResult :=
  {| query := query r; found := found r; is_long_text := is_long_text r;
     pronunciation := pronunciation r; pronunciation_us := pronunciation_us r;
     pronunciation_uk := pronunciation_uk r; translations := translations r;
     examples := examples r; collins_items := v;
     collins_rank := collins_rank r; source := source r; cached_at := cached_at r |}.
Definition set_collins_rank (r : QueryResult) (v : option string) : QueryResult :=
  {| query := query r; found := found r; is_long_text := is_long_text r;
     pronunciation := pronunciation r; pronunciation_us := pronunciation_us r;
     pronunciation_uk := pronunciation_uk r; translations := translations r;
     examples := examples r; collins_items := collins_items r;
     collins_rank := v; source := source r; cached_at := cached_at r |}.

(** [Option::is_none] *)
Definition is_none {A} (o : option A) : bool :=
  match o with None => true | Some _ => false end.

(** [Vec::is_empty] *)
Definition is_empty {A} (l : list A) : bool :=
  match l with [] => true | _ :: _ => false end.

Definition is_online (s : QuerySource) : bool :=
  match s with Online _ => true | _ => false end.

(* ------------------------------------------------------------------ *)
(** ** The legacy record (src/migration/legacy.rs) *)

Module Legacy.

(** [CollinsItem]; serde names [a], [maj], [eg]. Its [examples] field is
    [item_examples] here (one projection name space per module). *)
Record CollinsItem := mkCollinsItem {
  additional : option string;
  major_trans : option string;
  item_examples : option (list (list string))
}.

(** [CollinsData]; serde names [li], [star], [rank], [pat]. *)
Record CollinsData := mkCollinsData {
  items : option (list CollinsItem);
  star : option Z;
  rank : option string;
  additional_pattern : option string
}.

(** [LegacyResult]; serde names [k], [pron], [para], [eg], [co]. The
    [pron] map is only probed with [get] (a [gmap]); the [eg] map is
    iterated (an association list in iteration order). *)
Record LegacyResult := mkLegacyResult {
  keyword : option string;
  pronounce : option (gmap string string);
  paraphrase : option (list string);
  examples : option (list (string * list (list string)));
  collins : option CollinsData
}.

End Legacy.

(* ------------------------------------------------------------------ *)
(** ** [convert_legacy] (src/application/update.rs) *)

(** The two label conventions of the legacy [pron] map. *)
Definition label_us_primary : string := "美".
Definition label_uk_primary : string := "英".
Definition label_us_alternate : string := "us".
Definition label_uk_alternate : string := "uk".

(** [for pair in list { if pair.len() >= 2 { acc.push((pair[0], pair[1])) } }] *)
Definition push_pairs (acc : list (string * string)) (list_ : list (list string))
  : list (string * string) :=
  fold_left (fun acc pair =>
    match pair with
    | a :: b :: _ => (acc ++ [(a, b)])%list
    | _ => acc
    end) list_ acc.

(** The pronunciation block of [convert_legacy]. *)
Definition convert_pronounce (pron : gmap string string) (result : QueryResult)
  : QueryResult :=
  let result :=
    match pron !! label_us_primary with
    | Some us => set_pronunciation (set_pronunciation_us result (Some us)) (Some us)
    | None =>
        match pron !! label_us_alternate with
        | Some us => set_pronunciation (set_pronunciation_us result (Some us)) (Some us)
        | None => result
        end
    end in
  match pron !! label_uk_primary with
  | Some uk =>
      let result := set_pronunciation_uk result (Some uk) in
      if is_none (pronunciation result) then set_pronunciation result (Some uk) else result
  | None =>
      match pron !! label_uk_alternate with
      | Some uk =>
          let result := set_pronunciation_uk result (Some uk) in
          if is_none (pronunciation result) then set_pronunciation result (Some uk) else result
      | None => result
      end
  end.

(** One Collins item: build the display item, keep it if it has content. *)
Definition convert_collins_item (result : QueryResult) (item : Legacy.CollinsItem)
  : QueryResult :=
  let collins_item :=
    {| additional := Legacy.additional item;
       major_trans := Legacy.major_trans item;
       item_examples :=
         match Legacy.item_examples item with
         | Some egs => push_pairs [] egs
         | None => []
         end |} in
  if negb (is_none (major_trans collins_item)) || negb (is_empty (item_examples collins_item))
  then set_collins_items result (collins_items result ++ [collins_item])%list
  else result.

(** [convert_legacy] *)
Definition convert_legacy (legacy : Legacy.LegacyResult) : QueryResult :=
  let keyword := match Legacy.keyword legacy with Some k => k | None => "unknown" end in
  let result := QueryResult_new keyword false in
  let result := set_found result true in
  let result :=
    match Legacy.pronounce legacy with
    | Some pron => convert_pronounce pron result
    | None => result
    end in
  let result :=
    match Legacy.paraphrase legacy with
    | Some para => set_translations result para
    | None => result
    end in
  let result :=
    match Legacy.examples legacy with
    | Some egs =>
        fold_left (fun result '(_, list_) =>
          set_examples result (push_pairs (examples result) list_)) egs result
    | None => result
    end in
  let result :=
    match Legacy.collins legacy with
    | Some collins =>
        let result :=
          match Legacy.rank collins with
          | Some rank => set_collins_rank result (Some rank)
          | None => result
          end in
        match Legacy.items collins with
        | Some items => fold_left convert_collins_item items result
        | None => result
        end
    | None => result
    end in
  set_source result OfflineDb.

(* ------------------------------------------------------------------ *)
(** ** A state and error monad for the async code

    [StM S A] runs against a state [S] and ends in [Ok] or in the first
    [Err] (Rust's [?]); the state reached at the error is kept, as the
    effects performed before the error are not undone. *)

Definition StM (S A : Type) : Type := S -> Result A KdError * S.

Global Instance StM_ret S : MRet (StM S) := fun A a s => (Ok a, s).
Global Instance StM_bind S : MBind (StM S) := fun A B k m s =>
  match m s with
  | (Ok a, s') => k a s'
  | (Err e, s') => (Err e, s')
  end.

(* ------------------------------------------------------------------ *)
(** ** [query_word] (src/application/query.rs)

    The collaborators are parameters: the Persistent Store read
    [query_cache] and write [insert_cache] (db.rs), the Remote Provider
    [query_youdao] (network/client.rs) and the clock [Utc::now()]. Every
    access to a tier is recorded in the state's [log]. *)

Inductive Event :=
| MemGet (q : string)                       (* state.cache.get(q)        *)
| MemInsert (q : string) (r : QueryResult)  (* state.cache.insert(q, r)  *)
| DbRead (q : string)                       (* query_cache(&state.db, q) *)
| DbWrite (q : string) (r : QueryResult)    (* insert_cache(&db, q, r)   *)
| RemoteFetch (q : string).                 (* query_youdao(.., q)       *)

Section Lookup.

Variable Store : Type.
Variable query_cache : Store -> string -> Result (option QueryResult) KdError.
Variable insert_cache : Store -> string -> QueryResult -> Result Store KdError.
Variable query_youdao : string -> Result QueryResult KdError.
Variable now : Z.

(** [AppState]: the DashMap cache and the database connection. *)
Record AppState := mkAppState {
  cache : gmap string QueryResult;
  db : Store;
  log : list Event
}.

Definition log_event (e : Event) (s : AppState) : AppState :=
  {| cache := cache s; db := db s; log := (log s ++ [e])%list |}.

Definition cache_get (q : string) : StM AppState (option QueryResult) :=
  fun s => (Ok (cache s !! q), log_event (MemGet q) s).

Definition cache_insert (q : string) (r : QueryResult) : StM AppState unit :=
  fun s => (Ok tt, {| cache := <[q := r]> (cache s); db := db s;
                      log := (log s ++ [MemInsert q r])%list |}).

Definition db_query (q : string) : StM AppState (option QueryResult) :=
  fun s => (query_cache (db s) q, log_event (DbRead q) s).

Definition db_insert (q : string) (r : QueryResult) : StM AppState unit :=
  fun s =>
    let s := log_event (DbWrite q r) s in
    match insert_cache (db s) q r with
    | Ok d => (Ok tt, {| cache := cache s; db := d; log := log s |})
    | Err e => (Err e, s)
    end.

Definition remote_fetch (q : string) : StM AppState QueryResult :=
  fun s => (query_youdao q, log_event (RemoteFetch q) s).

(** Steps 3 and 4: online query and write-back. *)
Definition online_step (q : string) (no_cache is_long_text : bool)
  : StM AppState QueryResult :=
  result ← remote_fetch q;
  let result := if is_long_text then set_is_long_text result true else result in
  if negb no_cache && found result then
    let result := set_cached_at result (Some now) in
    _ ← cache_insert q result;
    _ ← db_insert q result;
    mret result
  else mret result.

(** Step 2: the database cache. *)
Definition db_step (q : string) (no_cache is_long_text : bool)
  : StM AppState QueryResult :=
  if negb no_cache then
    o ← db_query q;
    match o with
    | Some cached =>
        _ ← cache_insert q cached;
        let res := cached in
        if is_online (source res) then mret res
        else mret (set_source res OfflineDb)
    | None => online_step q no_cache is_long_text
    end
  else online_step q no_cache is_long_text.

(** [query_word]; step 1: the memory cache. *)
Definition query_word (q : string) (no_cache is_long_text : bool)
  : StM AppState QueryResult :=
  if negb no_cache then
    o ← cache_get q;
    match o with
    | Some cached => mret (set_source cached LocalCache)
    | None => db_step q no_cache is_long_text
    end
  else db_step q no_cache is_long_text.

End Lookup.

Arguments query_word {Store} query_cache insert_cache query_youdao now q no_cache is_long_text.
Arguments cache {Store} a.
Arguments db {Store} a.
Arguments log {Store} a.
Arguments log_event {Store} e s.
Arguments mkAppState {Store} cache db log.
Arguments online_step {Store} insert_cache query_youdao now q no_cache is_long_text.
Arguments db_step {Store} query_cache insert_cache query_youdao now q no_cache is_long_text.

(* ------------------------------------------------------------------ *)
(** ** JSON text: serde_json's compact writer and its reader

    [serde_json::to_vec] writes the compact form: no white space, strings
    escaped with the table of serde_json's [format_escaped_str] (quote,
    backslash and the control characters below 0x20; [\u00XX] uses
    lowercase hex), integers in decimal. [serde_json::from_slice] skips
    white space between tokens, rejects control characters inside
    strings, leading zeros, and trailing characters. Not modelled: UTF-8
    validation (a Rust [String] is always valid UTF-8), surrogate pairs in
    [\u] escapes, and floats (an [i64] field never holds one). *)

#[warnings="-register-all"]
Inductive Value :=
| JNull
| JBool (b : bool)
| JNumber (n : Z)
| JString (s : string)
| JArray (l : list Value)
| JObject (l : list (string * Value)).

(** Induction over [Value] through the nested lists. *)
Section ValueInd.
Variable P : Value -> Prop.
Hypothesis HNull : P JNull.
Hypothesis HBool : forall b, P (JBool b).
Hypothesis HNumber : forall n, P (JNumber n).
Hypothesis HString : forall s, P (JString s).
Hypothesis HArray : forall l, Forall P l -> P (JArray l).
Hypothesis HObject : forall l, Forall (fun kv => P (snd kv)) l -> P (JObject l).

Fixpoint value_ind' (v : Value) : P v :=
  match v with
  | JNull => HNull
  | JBool b => HBool b
  | JNumber n => HNumber n
  | JString s => HString s
  | JArray l =>
      HArray l ((fix go (l : list Value) : Forall P l :=
                   match l with
                   | [] => List.Forall_nil _
                   | x :: l' => List.Forall_cons _ _ _ (value_ind' x) (go l')
                   end) l)
  | JObject l =>
      HObject l ((fix go (l : list (string * Value)) : Forall (fun kv => P (snd kv)) l :=
                    match l with
                    | [] => List.Forall_nil _
                    | (k, x) :: l' => List.Forall_cons (fun kv => P (snd kv)) (k, x) l' (value_ind' x) (go l')
                    end) l)
  end.
End ValueInd.

(** The number of nodes, counting one more per element or member. *)
Fixpoint value_size (v : Value) : nat :=
  match v with
  | JArray l => S (list_sum (map (fun x => S (value_size x)) l))
  | JObject l => S (list_sum (map (fun kv => S (value_size (snd kv))) l))
  | _ => 1
  end.

Definition dq : ascii := "034"%char.   (* the quote character *)
Definition bsl : ascii := "092"%char.  (* the backslash *)

Definition hex_digit (n : nat) : ascii :=
  ascii_of_nat (if (n <? 10)%nat then 48 + n else 87 + n).

(** serde_json's [ESCAPE] table and [CharEscape]. *)
Definition escape_char (c : ascii) : string :=
  let n := nat_of_ascii c in
  if Ascii.eqb c dq then String bsl (String dq EmptyString)
  else if Ascii.eqb c bsl then String bsl (String bsl EmptyString)
  else if (n =? 8)%nat then String bsl "b"
  else if (n =? 12)%nat then String bsl "f"
  else if (n =? 10)%nat then String bsl "n"
  else if (n =? 13)%nat then String bsl "r"
  else if (n =? 9)%nat then String bsl "t"
  else if (n <? 32)%nat then
    String bsl (String "u" (String "0" (String "0"
      (String (hex_digit (n / 16)%nat) (String (hex_digit (n mod 16)%nat) EmptyString)))))
  else String c EmptyString.

Fixpoint escape_str (s : string) : string :=
  match s with
  | EmptyString => EmptyString
  | String c s' => escape_char c ++ escape_str s'
  end.

Definition write_str (s : string) : string :=
  String dq (escape_str s ++ String dq EmptyString).

Fixpoint write_uint (u : Decimal.uint) : string :=
  match u with
  | Decimal.Nil => EmptyString
  | Decimal.D0 u => String "0" (write_uint u)
  | Decimal.D1 u => String "1" (write_uint u)
  | Decimal.D2 u => String "2" (write_uint u)
  | Decimal.D3 u => String "3" (write_uint u)
  | Decimal.D4 u => String "4" (write_uint u)
  | Decimal.D5 u => String "5" (write_uint u)
  | Decimal.D6 u => String "6" (write_uint u)
  | Decimal.D7 u => String "7" (write_uint u)
  | Decimal.D8 u => String "8" (write_uint u)
  | Decimal.D9 u => String "9" (write_uint u)
  end.

(** [itoa] as used by serde_json for [i64]. *)
Definition write_int (z : Z) : string :=
  match Z.to_int z with
  | Decimal.Pos u => write_uint u
  | Decimal.Neg u => String "-" (write_uint u)
  end.

Fixpoint write_json (v : Value) : string :=
  match v with
  | JNull => "null"
  | JBool true => "true"
  | JBool false => "false"
  | JNumber n => write_int n
  | JString s => write_str s
  | JArray l => String "[" (String.concat "," (map write_json l) ++ "]")
  | JObject l =>
      String "{" (String.concat ","
        (map (fun kv => write_str (fst kv) ++ String ":" (write_json (snd kv))) l) ++ "}")
  end.

(** The reader. [parse_value] takes a fuel argument for its recursion;
    [from_str_value] gives it one more than the input length, and every
    nested call consumes at least one character, so the fuel never runs
    out before the input does. *)

Definition is_ws (c : ascii) : bool :=
  let n := nat_of_ascii c in
  ((n =? 32) || (n =? 10) || (n =? 13) || (n =? 9))%nat.

Fixpoint skip_ws (s : string) : string :=
  match s with
  | String c s' => if is_ws c then skip_ws s' else s
  | EmptyString => EmptyString
  end.

Fixpoint strip_prefix (p s : string) : option string :=
  match p, s with
  | EmptyString, _ => Some s
  | String a p', String b s' => if Ascii.eqb a b then strip_prefix p' s' else None
  | String _ _, EmptyString => None
  end.

Definition hex_val (c : ascii) : option nat :=
  let n := nat_of_ascii c in
  if ((48 <=? n) && (n <=? 57))%nat then Some (n - 48)%nat
  else if ((97 <=? n) && (n <=? 102))%nat then Some (n - 87)%nat
  else if ((65 <=? n) && (n <=? 70))%nat then Some (n - 55)%nat
  else None.

(** The UTF-8 bytes of the code point of a [\uXXXX] escape. *)
#[warnings="-abstract-large-number"]
Definition utf8_of_code (cp : nat) : option string :=
  if (cp <? 128)%nat then Some (String (ascii_of_nat cp) EmptyString)
  else if (cp <? 2048)%nat then
    Some (String (ascii_of_nat (192 + cp / 64))
           (String (ascii_of_nat (128 + cp mod 64)) EmptyString))
  else if ((55296 <=? cp) && (cp <=? 57343))%nat then None
  else
    Some (String (ascii_of_nat (224 + cp / 4096))
           (String (ascii_of_nat (128 + (cp / 64) mod 64))
             (String (ascii_of_nat (128 + cp mod 64)) EmptyString))).

(** The one-character escapes: quote, backslash, slash, b, f, n, r, t. *)
Definition unescape_simple (e : ascii) : option ascii :=
  if Ascii.eqb e dq then Some dq
  else if Ascii.eqb e bsl then Some bsl
  else if Ascii.eqb e "/" then Some "/"%char
  else if Ascii.eqb e "b" then Some (ascii_of_nat 8)
  else if Ascii.eqb e "f" then Some (ascii_of_nat 12)
  else if Ascii.eqb e "n" then Some (ascii_of_nat 10)
  else if Ascii.eqb e "r" then Some (ascii_of_nat 13)
  else if Ascii.eqb e "t" then Some (ascii_of_nat 9)
  else None.

(** The body of a string literal, after the opening quote. *)
Fixpoint parse_str_body (s : string) : option (string * string) :=
  match s with
  | EmptyString => None
  | String c s' =>
      if Ascii.eqb c dq then Some (EmptyString, s')
      else if Ascii.eqb c bsl then
        match s' with
        | EmptyString => None
        | String e s'' =>
            match unescape_simple e with
            | Some ch =>
                match parse_str_body s'' with
                | Some (str, r) => Some (String ch str, r)
                | None => None
                end
            | None =>
                if Ascii.eqb e "u" then
                  match s'' with
                  | String h1 (String h2 (String h3 (String h4 s3))) =>
                      match hex_val h1, hex_val h2, hex_val h3, hex_val h4 with
                      | Some a, Some b, Some c', Some d =>
                          match utf8_of_code (((a * 16 + b) * 16 + c') * 16 + d)%nat,
                                parse_str_body s3 with
                          | Some u, Some (str, r) => Some (u ++ str, r)
                          | _, _ => None
                          end
                      | _, _, _, _ => None
                      end
                  | _ => None
                  end
                else None
            end
        end
      else if (nat_of_ascii c <? 32)%nat then None
      else
        match parse_str_body s' with
        | Some (str, r) => Some (String c str, r)
        | None => None
        end
  end.

Definition digit_ctor (c : ascii) : option (Decimal.uint -> Decimal.uint) :=
  match nat_of_ascii c with
  | 48 => Some Decimal.D0 | 49 => Some Decimal.D1 | 50 => Some Decimal.D2
  | 51 => Some Decimal.D3 | 52 => Some Decimal.D4 | 53 => Some Decimal.D5
  | 54 => Some Decimal.D6 | 55 => Some Decimal.D7 | 56 => Some Decimal.D8
  | 57 => Some Decimal.D9 | _ => None
  end.

Fixpoint read_digits (s : string) : Decimal.uint * string :=
  match s with
  | String c s' =>
      match digit_ctor c with
      | Some d => let (u, r) := read_digits s' in (d u, r)
      | None => (Decimal.Nil, s)
      end
  | EmptyString => (Decimal.Nil, EmptyString)
  end.

Definition leading_zero (u : Decimal.uint) : bool :=
  match u with
  | Decimal.D0 Decimal.Nil => false
  | Decimal.D0 _ => true
  | _ => false
  end.

Definition starts_float (s : string) : bool :=
  match s with
  | String c _ => Ascii.eqb c "." || Ascii.eqb c "e" || Ascii.eqb c "E"
  | EmptyString => false
  end.

(** The digits of an integer: at least one, no leading zero, no
    fraction or exponent (an [i64] field rejects a float). *)
Definition parse_uint (s : string) : option (Decimal.uint * string) :=
  let (u, r) := read_digits s in
  match u with
  | Decimal.Nil => None
  | _ => if leading_zero u || starts_float r then None else Some (u, r)
  end.

Fixpoint parse_value (fuel : nat) (s : string) : option (Value * string) :=
  match fuel with
  | O => None
  | S f =>
    match skip_ws s with
    | EmptyString => None
    | String c r =>
      if Ascii.eqb c "n" then
        match strip_prefix "ull" r with Some r' => Some (JNull, r') | None => None end
      else if Ascii.eqb c "t" then
        match strip_prefix "rue" r with Some r' => Some (JBool true, r') | None => None end
      else if Ascii.eqb c "f" then
        match strip_prefix "alse" r with Some r' => Some (JBool false, r') | None => None end
      else if Ascii.eqb c dq then
        match parse_str_body r with
        | Some (str, r') => Some (JString str, r')
        | None => None
        end
      else if Ascii.eqb c "-" then
        match parse_uint r with
        | Some (u, r') => Some (JNumber (Z.of_int (Decimal.Neg u)), r')
        | None => None
        end
      else if negb (is_none (digit_ctor c)) then
        match parse_uint (String c r) with
        | Some (u, r') => Some (JNumber (Z.of_int (Decimal.Pos u)), r')
        | None => None
        end
      else if Ascii.eqb c "[" then
        match skip_ws r with
        | String d r' =>
          if Ascii.eqb d "]" then Some (JArray [], r')
          else match parse_elems f r with
               | Some (vs, r'') => Some (JArray vs, r'')
               | None => None
               end
        | EmptyString => None
        end
      else if Ascii.eqb c "{" then
        match skip_ws r with
        | String d r' =>
          if Ascii.eqb d "}" then Some (JObject [], r')
          else match parse_members f r with
               | Some (kvs, r'') => Some (JObject kvs, r'')
               | None => None
               end
        | EmptyString => None
        end
      else None
    end
  end

(** The elements of a non-empty array, up to and including the closing bracket. *)
with parse_elems (fuel : nat) (s : string) : option (list Value * string) :=
  match fuel with
  | O => None
  | S f =>
    match parse_value f s with
    | Some (v, r1) =>
      match skip_ws r1 with
      | String d r2 =>
        if Ascii.eqb d "," then
          match parse_elems f r2 with
          | Some (vs, r3) => Some (v :: vs, r3)
          | None => None
          end
        else if Ascii.eqb d "]" then Some ([v], r2)
        else None
      | EmptyString => None
      end
    | None => None
    end
  end

(** The members of a non-empty object, up to and including the closing brace. *)
with parse_members (fuel : nat) (s : string) : option (list (string * Value) * string) :=
  match fuel with
  | O => None
  | S f =>
    match skip_ws s with
    | String q r1 =>
      if Ascii.eqb q dq then
        match parse_str_body r1 with
        | Some (k, r2) =>
          match skip_ws r2 with
          | String colon r3 =>
            if Ascii.eqb colon ":" then
              match parse_value f r3 with
              | Some (v, r4) =>
                match skip_ws r4 with
                | String d r5 =>
                  if Ascii.eqb d "," then
                    match parse_members f r5 with
                    | Some (kvs, r6) => Some ((k, v) :: kvs, r6)
                    | None => None
                    end
                  else if Ascii.eqb d "}" then Some ([(k, v)], r5)
                  else None
                | EmptyString => None
                end
              | None => None
              end
            else None
          | EmptyString => None
          end
        | None => None
        end
      else None
    | EmptyString => None
    end
  end.

(** [serde_json::from_str] at the [Value] level: one value, then only
    white space. *)
Definition from_str_value (s : string) : option Value :=
  match parse_value (S (String.length s)) s with
  | Some (v, r) => match skip_ws r with EmptyString => Some v | _ => None end
  | None => None
  end.

(* ------------------------------------------------------------------ *)
(** ** [#[derive(Serialize, Deserialize)]] on the model types

    Structs are objects with the fields in declaration order, [Option]
    is [null] or the value, [Vec] and tuples are arrays, and enums are
    externally tagged (a unit variant is its name, a newtype variant a
    one-entry object). When reading a struct, unknown fields are
    ignored, a repeated field is an error, a missing [Option] field is
    [None] and any other missing field is an error. The struct visitor's
    array form is not modelled. *)

Definition online_source_name (o : OnlineSource) : string :=
  match o with Youdao => "Youdao" | Bing => "Bing" | Google => "Google" end.

Definition ser_option {A} (f : A -> Value) (o : option A) : Value :=
  match o with Some a => f a | None => JNull end.

Definition ser_pair (p : string * string) : Value :=
  JArray [JString (fst p); JString (snd p)].

Definition ser_source (s : QuerySource) : Value :=
  match s with
  | OfflineDb => JString "OfflineDb"
  | LocalCache => JString "LocalCache"
  | Online o => JObject [("Online", JString (online_source_name o))]
  end.

Definition ser_collins_item (i : CollinsDisplayItem) : Value :=
  JObject [("additional", ser_option JString (additional i));
           ("major_trans", ser_option JString (major_trans i));
           ("examples", JArray (map ser_pair (item_examples i)))].

Definition ser_query_result (r : QueryResult) : Value :=
  JObject [("query", JString (query r));
           ("found", JBool (found r));
           ("is_long_text", JBool (is_long_text r));
           ("pronunciation", ser_option JString (pronunciation r));
           ("pronunciation_us", ser_option JString (pronunciation_us r));
           ("pronunciation_uk", ser_option JString (pronunciation_uk r));
           ("translations", JArray (map JString (translations r)));
           ("examples", JArray (map ser_pair (examples r)));
           ("collins_items", JArray (map ser_collins_item (collins_items r)));
           ("collins_rank", ser_option JString (collins_rank r));
           ("source", ser_source (source r));
           ("cached_at", ser_option JNumber (cached_at r))].

(** The entry of a struct field: [Some None] when absent, [None] when
    repeated. *)
Definition field (kvs : list (string * Value)) (name : string) : option (option Value) :=
  match List.filter (fun kv => String.eqb (fst kv) name) kvs with
  | [] => Some None
  | [(_, v)] => Some (Some v)
  | _ => None
  end.

Definition de_required {A} (kvs : list (string * Value)) (name : string)
  (de : Value -> option A) : option A :=
  match field kvs name with
  | Some (Some v) => de v
  | _ => None
  end.

Definition de_option {A} (de : Value -> option A) (v : Value) : option (option A) :=
  match v with
  | JNull => Some None
  | _ => match de v with Some a => Some (Some a) | None => None end
  end.

Definition de_optional {A} (kvs : list (string * Value)) (name : string)
  (de : Value -> option A) : option (option A) :=
  match field kvs name with
  | Some None => Some None
  | Some (Some v) => de_option de v
  | None => None
  end.

Definition de_string (v : Value) : option string :=
  match v with JString s => Some s | _ => None end.

Definition de_bool (v : Value) : option bool :=
  match v with JBool b => Some b | _ => None end.

Definition i64_min : Z := (- 2 ^ 63)%Z.
Definition i64_max : Z := (2 ^ 63 - 1)%Z.

Definition de_i64 (v : Value) : option Z :=
  match v with
  | JNumber n => if ((i64_min <=? n) && (n <=? i64_max))%Z then Some n else None
  | _ => None
  end.

Definition de_seq {A} (de : Value -> option A) (v : Value) : option (list A) :=
  match v with JArray l => mapM de l | _ => None end.

Definition de_pair (v : Value) : option (string * string) :=
  match v with
  | JArray [a; b] => x ← de_string a; y ← de_string b; Some (x, y)
  | _ => None
  end.

Definition de_online_source (v : Value) : option OnlineSource :=
  match v with
  | JString "Youdao" => Some Youdao
  | JString "Bing" => Some Bing
  | JString "Google" => Some Google
  | _ => None
  end.

Definition de_source (v : Value) : option QuerySource :=
  match v with
  | JString "OfflineDb" => Some OfflineDb
  | JString "LocalCache" => Some LocalCache
  | JObject [("OfflineDb", JNull)] => Some OfflineDb
  | JObject [("LocalCache", JNull)] => Some LocalCache
  | JObject [("Online", v')] => o ← de_online_source v'; Some (Online o)
  | _ => None
  end.

Definition de_collins_item (v : Value) : option CollinsDisplayItem :=
  match v with
  | JObject kvs =>
      a ← de_optional kvs "additional" de_string;
      m ← de_optional kvs "major_trans" de_string;
      e ← de_required kvs "examples" (de_seq de_pair);
      Some {| additional := a; major_trans := m; item_examples := e |}
  | _ => None
  end.

Definition de_query_result (v : Value) : option QueryResult :=
  match v with
  | JObject kvs =>
      q ← de_required kvs "query" de_string;
      f ← de_required kvs "found" de_bool;
      l ← de_required kvs "is_long_text" de_bool;
      p ← de_optional kvs "pronunciation" de_string;
      pus ← de_optional kvs "pronunciation_us" de_string;
      puk ← de_optional kvs "pronunciation_uk" de_string;
      t ← de_required kvs "translations" (de_seq de_string);
      e ← de_required kvs "examples" (de_seq de_pair);
      ci ← de_required kvs "collins_items" (de_seq de_collins_item);
      cr ← de_optional kvs "collins_rank" de_string;
      s ← de_required kvs "source" de_source;
      ca ← de_optional kvs "cached_at" de_i64;
      Some {| query := q; found := f; is_long_text := l; pronunciation := p;
              pronunciation_us := pus; pronunciation_uk := puk; translations := t;
              examples := e; collins_items := ci; collins_rank := cr;
              source := s; cached_at := ca |}
  | _ => None
  end.

(** [serde_json::to_vec(&result)] and [serde_json::from_slice::<QueryResult>]. *)
Definition to_vec (r : QueryResult) : Result bytes KdError :=
  Ok (list_byte_of_string (write_json (ser_query_result r))).

Definition from_slice (b : bytes) : option QueryResult :=
  v ← from_str_value (string_of_list_byte b); de_query_result v.

(* ------------------------------------------------------------------ *)
(** ** The SQLite cache table (src/infrastructure/storage/db.rs)

    A row of table [cache]; the connection holds the rows keyed by the
    [query] primary key, and the faults the engine can raise: [io_ok]
    false makes every call fail (I/O error, [transaction()],
    [prepare], [finalize]), [exec_ok q] false makes the statement for key
    [q] fail, [commit_ok] false makes [COMMIT] fail, after which the
    transaction is rolled back. *)

Record Row := mkRow {
  data : bytes;
  compressed_size : nat;
  original_size : nat;
  created_at : Z;
  updated_at : Z
}.

Record Connection := mkConnection {
  rows : gmap string Row;
  io_ok : bool;
  exec_ok : string -> bool;
  commit_ok : bool
}.

Definition set_rows (c : Connection) (rs : gmap string Row) : Connection :=
  {| rows := rs; io_ok := io_ok c; exec_ok := exec_ok c; commit_ok := commit_ok c |}.

Definition io_error : KdError := Database (SqliteFailure "disk I/O error").
Definition exec_error : KdError := Database (SqliteFailure "statement failed").
Definition commit_error : KdError := Database (SqliteFailure "commit failed").

(** [rusqlite::Error::FromSqlConversionFailure(0, Type::Blob, e)] raised
    inside [db.call], as [query_cache_impl] maps a decode failure. *)
Definition conversion_error (cause : string) : KdError :=
  Database (FromSqlConversionFailure 0 cause).

Section Store.

(** zstd's [encode_all(Cursor::new(..), 0)] and [decode_all]; [None] is
    their [io::Error]. *)
Variable zstd_encode_all : bytes -> option bytes.
Variable zstd_decode_all : bytes -> option bytes.
(** [chrono::Utc::now().timestamp()] *)
Variable now : Z.

(** [query_cache_impl] *)
Definition query_cache_impl (db : Connection) (q : string)
  : Result (option QueryResult) KdError :=
  if negb (io_ok db) then Err io_error
  else
    match rows db !! q with
    | None => Ok None                         (* QueryReturnedNoRows, .optional() *)
    | Some row =>
        match zstd_decode_all (data row) with
        | None => Err (conversion_error "zstd")
        | Some decompressed =>
            match from_slice decompressed with
            | None => Err (conversion_error "json")
            | Some result => Ok (Some result)
            end
        end
    end.

(** [insert_cache_impl]; the new connection state on success. *)
Definition insert_cache_impl (db : Connection) (q : string) (result : QueryResult)
  : Result Connection KdError :=
  match to_vec result with
  | Err e => Err e
  | Ok serialized =>
      match zstd_encode_all serialized with
      | None => Err (Io "zstd")
      | Some compressed =>
          if negb (io_ok db) then Err io_error
          else if negb (exec_ok db q) then Err exec_error
          else
            Ok (set_rows db
                  (<[q := {| data := compressed;
                             compressed_size := length compressed;
                             original_size := length serialized;
                             created_at := now; updated_at := now |}]> (rows db)))
      end
  end.

(** One prepared item: [(query, compressed, compressed_len, original_len)]. *)
Definition prepare_item (item : string * QueryResult) : option (string * bytes * nat * nat) :=
  let '(q, result) := item in
  match to_vec result with
  | Err _ => None
  | Ok serialized =>
      match zstd_encode_all serialized with
      | None => None
      | Some compressed => Some (q, compressed, length compressed, length serialized)
      end
  end.

(** [Iterator::filter_map] *)
Fixpoint filter_map {A B} (f : A -> option B) (l : list A) : list B :=
  match l with
  | [] => []
  | x :: l' => match f x with Some y => y :: filter_map f l' | None => filter_map f l' end
  end.

(** The loop inside the transaction: [(count, rows)] after the statements. *)
Definition exec_all (db : Connection) (prepared : list (string * bytes * nat * nat))
  : nat * gmap string Row :=
  fold_left (fun '(count, rs) '(q, compressed, compressed_len, original_len) =>
    if exec_ok db q then
      (S count, <[q := {| data := compressed; compressed_size := compressed_len;
                          original_size := original_len;
                          created_at := now; updated_at := now |}]> rs)
    else (count, rs)) prepared (0%nat, rows db).

(** [batch_insert_cache_impl]: the returned count and the connection after
    the call (the rows are replaced only when the transaction commits). *)
Definition batch_insert_cache_impl (db : Connection) (items : list (string * QueryResult))
  : Result nat KdError * Connection :=
  let prepared_items := filter_map prepare_item items in
  if is_empty prepared_items then (Ok 0%nat, db)
  else if negb (io_ok db) then (Err io_error, db)
  else
    let '(count, rs) := exec_all db prepared_items in
    if commit_ok db then (Ok count, set_rows db rs)
    else (Err commit_error, db).

End Store.

(* ------------------------------------------------------------------ *)
(** ** One table of [migrate_data] (src/application/update.rs)

    The rows read from the source table are given; the loop decodes each
    row, converts it and writes the batches through [batch_insert_cache].
    Printing and the progress bar are left out. *)

Definition BATCH_SIZE : nat := 100.

Record MigrationState := mkMigrationState {
  count : nat;
  error_count : nat;
  batch : list (string * QueryResult);
  target : Connection
}.

Section Migration.

(** [ZlibDecoder::read_to_end]: [None] when it fails. *)
Variable zlib_decode : bytes -> option bytes.
(** [serde_json::from_slice::<LegacyResult>] *)
Variable legacy_from_slice : bytes -> option Legacy.LegacyResult.
(** The Persistent Store's [batch_insert_cache]. *)
Variable batch_insert_cache :
  Connection -> list (string * QueryResult) -> Result nat KdError * Connection.

(** The body of [for (i, (query, detail_bytes)) in rows.iter().enumerate()]. *)
Definition migrate_row (st : MigrationState) (row : string * bytes) : MigrationState :=
  let '(q, detail_bytes) := row in
  let final_bytes :=
    match zlib_decode detail_bytes with
    | Some decompressed => decompressed
    | None => detail_bytes
    end in
  match legacy_from_slice final_bytes with
  | Some legacy =>
      let new_result := convert_legacy legacy in
      let b := (batch st ++ [(q, new_result)])%list in
      if (BATCH_SIZE <=? length b)%nat then
        match batch_insert_cache (target st) b with
        | (Ok inserted, t) =>
            {| count := count st + inserted; error_count := error_count st;
               batch := []; target := t |}
        | (Err _, t) =>
            {| count := count st; error_count := error_count st + BATCH_SIZE;
               batch := []; target := t |}
        end
      else {| count := count st; error_count := error_count st; batch := b;
              target := target st |}
  | None =>
      {| count := count st; error_count := error_count st + 1;
         batch := batch st; target := target st |}
  end.

(** "Insert remaining batch" *)
Definition flush_remaining (st : MigrationState) : MigrationState :=
  if negb (is_empty (batch st)) then
    match batch_insert_cache (target st) (batch st) with
    | (Ok inserted, t) =>
        {| count := count st + inserted; error_count := error_count st;
           batch := batch st; target := t |}
    | (Err _, t) =>
        {| count := count st; error_count := error_count st + 1;
           batch := batch st; target := t |}
    end
  else st.

(** One table: [(count, error_count)] and the target connection after it;
    an empty table is skipped. *)
Definition migrate_table (target_conn : Connection) (rows_ : list (string * bytes))
  : MigrationState :=
  let init := {| count := 0; error_count := 0; batch := []; target := target_conn |} in
  if is_empty rows_ then init
  else flush_remaining (fold_left migrate_row rows_ init).

End Migration.

(* ------------------------------------------------------------------ *)
(** ** Concrete collaborators for the executable checks

    A framing stand-in for zstd (the frame magic [28 b5 2f fd], then the
    payload; decoding fails on bytes without the magic), a Remote
    Provider stub, and a healthy empty connection. *)

Definition zstd_magic : bytes := [Byte.x28; Byte.xb5; Byte.x2f; Byte.xfd].

Definition frame_encode (b : bytes) : option bytes := Some (zstd_magic ++ b)%list.

Definition frame_decode (b : bytes) : option bytes :=
  match b with
  | Byte.x28 :: Byte.xb5 :: Byte.x2f :: Byte.xfd :: payload => Some payload
  | _ => None
  end.

(** The Remote Provider answering every query with one translation. *)
Definition youdao_stub (q : string) : Result QueryResult KdError :=
  Ok (set_translations (set_found (QueryResult_new q false) true) ["n. cat"]).

Definition empty_conn : Connection :=
  {| rows := ∅; io_ok := true; exec_ok := fun _ => true; commit_ok := true |}.

(** A legacy [pron] map in one label convention: the two slots under the
    given labels, over entries [others] with other labels. *)
Definition pron_map (label_us label_uk : string) (us uk : option string)
  (others : gmap string string) : gmap string string :=
  let m := match us with Some v => <[label_us := v]> others | None => others end in
  match uk with Some v => <[label_uk := v]> m | None => m end.

Definition with_pronounce (legacy : Legacy.LegacyResult) (pron : gmap string string)
  : Legacy.LegacyResult :=
  {| Legacy.keyword := Legacy.keyword legacy; Legacy.pronounce := Some pron;
     Legacy.paraphrase := Legacy.paraphrase legacy;
     Legacy.examples := Legacy.examples legacy; Legacy.collins := Legacy.collins legacy |}.


(** A compressor that fails on inputs above 300 bytes, framing the rest. *)
Definition size_limited_encode (b : bytes) : option bytes :=
  if (length b <=? 300)%nat then frame_encode b else None.

(** A record with every kind of field filled in. *)
Definition sample_record : QueryResult :=
  set_source
    (set_cached_at
      (set_collins_items
        (set_examples
          (set_pronunciation_us
            (set_translations (set_found (QueryResult_new "cat" false) true)
               ["n. cat"; "n. feline"])
            (Some "kæt"))
          [("a black cat", "eine schwarze Katze")])
        [{| additional := Some "N-COUNT"; major_trans := None;
            item_examples := [("cat", "Katze")] |}])
      (Some 1700000000%Z))
    (Online Youdao).

(** The connection after [sample_record] has been cached under ["cat"]. *)
Definition stored_conn : Connection :=
  match insert_cache_impl frame_encode 0 empty_conn "cat" sample_record with
  | Ok c => c
  | Err _ => empty_conn
  end.

(** A row under ["cat"] whose bytes are not a zstd frame. *)
Definition corrupt_row : Row :=
  {| data := [Byte.x00; Byte.x01]; compressed_size := 2; original_size := 2;
     created_at := 0; updated_at := 0 |}.

Definition corrupt_conn : Connection := set_rows empty_conn {["cat" := corrupt_row]}.

(** A connection whose [COMMIT] fails. *)
Definition commit_failing_conn : Connection :=
  {| rows := ∅; io_ok := true; exec_ok := fun _ => true; commit_ok := false |}.

(** The application state at start-up over a given store. *)
Definition init_state {Store} (d : Store) : AppState Store :=
  {| cache := ∅; db := d; log := [] |}.

(** The answer of [youdao_stub] to ["cat"] after steps 3 and 4 with the
    long-text flag asked for and the clock at 0. *)
Definition fresh_cat : QueryResult :=
  set_cached_at
    (set_is_long_text
       (set_translations (set_found (QueryResult_new "cat" false) true) ["n. cat"]) true)
    (Some 0%Z).

(** A legacy record, and two source rows that both decode to it. *)
Definition legacy_sample : Legacy.LegacyResult :=
  {| Legacy.keyword := Some "cat"; Legacy.pronounce := None;
     Legacy.paraphrase := Some ["n. cat"]; Legacy.examples := None;
     Legacy.collins := None |}.

Definition legacy_rows : list (string * bytes) :=
  [("cat", [Byte.x7b; Byte.x7d]); ("dog", [Byte.x7b; Byte.x7d])].

(** *** Notions used in the statements *)

(** Rust's [i64] range; a [cached_at] of a Rust record lies in it. *)
Definition in_i64 (z : Z) : Prop := (i64_min <= z <= i64_max)%Z.

Definition cached_at_in_i64 (r : QueryResult) : Prop :=
  match cached_at r with Some t => in_i64 t | None => True end.

(** The number of items whose encoding fails ([prepare_item] gives [None]). *)
Definition encode_failures (zstd_encode_all : bytes -> option bytes)
  (items : list (string * QueryResult)) : nat :=
  length (List.filter (fun it => is_none (prepare_item zstd_encode_all it)) items).

(** The key of a prepared item. *)
Definition prepared_key (p : string * bytes * nat * nat) : string :=
  let '(q, _, _, _) := p in q.

(** The row map after the [INSERT OR REPLACE] of one prepared item. *)
Definition put_prepared (now : Z) (rs : gmap string Row) (p : string * bytes * nat * nat)
  : gmap string Row :=
  let '(q, compressed, compressed_len, original_len) := p in
  <[q := {| data := compressed; compressed_size := compressed_len;
            original_size := original_len; created_at := now; updated_at := now |}]> rs.

(** The text a JSON value may be followed by inside a document: nothing,
    or a separator or closing bracket. *)
Definition follows (rest : string) : Prop :=
  match rest with
  | EmptyString => True
  | String c _ => c = ","%char \/ c = "]"%char \/ c = "}"%char
  end.

(** The writer's text of [v] is read back as [v], leaving what follows. *)
Definition value_parses (v : Value) : Prop :=
  forall fuel rest, (value_size v <= fuel)%nat -> follows rest ->
    parse_value fuel (write_json v ++ rest) = Some (v, rest).

(** The text of one object member. *)
Definition write_member (kv : string * Value) : string :=
  write_str (fst kv) ++ String ":" (write_json (snd kv)).


(* ------------------------------------------------------------------ *)
(** ** The Youdao client (src/infrastructure/network/client.rs) *)

(** [config.youdao]: the two credentials. *)
Record YoudaoConfig := mkYoudaoConfig { api_id : option string; api_key : option string }.

(** The response structures; serde names [translation], [basic] ([phonetic],
    [explains]), [web] ([key], [value]) and [errorCode]. *)
Module Youdao.
Record BasicInfo := mkBasicInfo { pronunciation : option string; explains : option (list string) }.
Record WebTranslation := mkWebTranslation { key : string; value : list string }.
Record YoudaoResponse := mkYoudaoResponse {
  translations : option (list string);
  basic : option BasicInfo;
  web_translations : option (list WebTranslation);
  error_code : string
}.
End Youdao.

(** [str::is_char_boundary]: 0 and the length are boundaries; otherwise the
    byte at [index] must not be a UTF-8 continuation byte ([b as i8 >= -0x40]). *)
Definition is_char_boundary (s : string) (index : nat) : bool :=
  if (index =? 0)%nat then true
  else match String.get index s with
       | None => (index =? String.length s)%nat
       | Some b => let n := nat_of_ascii b in ((n <? 128) || (192 <=? n))%nat
       end.

(** [&s[b..e]]; [None] is the panic of a bad range or a cut inside a character. *)
Definition str_slice (s : string) (b e : nat) : option string :=
  if ((b <=? e)%nat && is_char_boundary s b && is_char_boundary s e)%bool
  then Some (substring b (e - b) s) else None.

(** [usize::to_string] / [u64::to_string] *)
Definition usize_to_string (n : nat) : string := write_uint (Nat.to_uint n).

(** The signing input of the v3 signature; [None] is the panic of the slices. *)
Definition sign_input (query : string) : option string :=
  if (String.length query <=? 20)%nat then Some query
  else
    match str_slice query 0 10,
          str_slice query (String.length query - 10) (String.length query) with
    | Some a, Some b => Some (a ++ usize_to_string (String.length query) ++ b)
    | _, _ => None
    end.

(** The message table for a non-zero [errorCode]. *)
Definition youdao_error_message (code : string) : string :=
  match code with
  | "101" => "Missing required parameter"
  | "102" => "Unsupported language type"
  | "103" => "Text too long"
  | "104" => "Unsupported API type"
  | "105" => "Unsupported signature type"
  | "106" => "Unsupported response type"
  | "107" => "Unsupported transmission encryption type"
  | "108" => "Invalid appKey or signature error (check api_key)"
  | "109" => "Invalid batchLog format"
  | "110" => "No related service"
  | "111" => "Developer account is abnormal"
  | "201" => "Decryption failed, check api_key"
  | "202" => "Missing signature"
  | "203" => "Signature verification failed"
  | "301" => "Dictionary query failed"
  | "302" => "Translation query failed"
  | "303" => "Server-side exception"
  | "401" => "Account balance insufficient"
  | "411" => "Access frequency limited"
  | _ => "Unknown error"
  end.

(** The part of [query_youdao_impl] after the response is read. *)
Definition youdao_result (query : string) (response : Youdao.YoudaoResponse)
  : Result QueryResult KdError :=
  if negb (String.eqb (Youdao.error_code response) "0") then
    Err (Api ("Youdao API Error " ++ Youdao.error_code response ++ ": " ++
              youdao_error_message (Youdao.error_code response)))
  else
    let result := set_source (QueryResult_new query false) (Online Youdao) in
    let result := match Youdao.translations response with
                  | Some trans => set_translations result trans
                  | None => result
                  end in
    let result := match Youdao.basic response with
                  | Some basic =>
                      let result := set_pronunciation result (Youdao.pronunciation basic) in
                      match Youdao.explains basic with
                      | Some explains => set_translations result (translations result ++ explains)%list
                      | None => result
                      end
                  | None => result
                  end in
    let result := match Youdao.web_translations response with
                  | Some web =>
                      set_examples result
                        (map (fun w => (Youdao.key w, String.concat "; " (Youdao.value w))) web)
                  | None => result
                  end in
    if negb (is_empty (translations result)) || negb (is_none (pronunciation result))
       || negb (is_empty (examples result))
    then Ok (set_found result true)
    else Ok result.

(** [as_deref().unwrap_or("")] *)
Definition unwrap_or_empty (o : option string) : string :=
  match o with Some s => s | None => "" end.

Section YoudaoClient.

(** [Uuid::new_v4().to_string()] *)
Variable new_salt : string.
(** [SystemTime::now().duration_since(UNIX_EPOCH)?.as_secs()]; the [Err] is
    the [SystemTimeError] that [?] converts ([KdError::Time], a constructor
    the other code paths never build, left to the caller here). *)
Variable now_secs : Result nat KdError.
(** [hex::encode(Sha256::digest(raw_sign))] *)
Variable sha256_hex : string -> string.
(** The GET to the API with the query parameters and [.json::<YoudaoResponse>()];
    an [Err] is the [reqwest::Error] of either step. *)
Variable youdao_get : list (string * string) -> Result Youdao.YoudaoResponse KdError.

(** [query_youdao_impl]; [None] is a panic. *)

Definition query_youdao_impl (config : YoudaoConfig) (query : string)
  : option (Result QueryResult KdError) :=
  let api_id := unwrap_or_empty (api_id config) in
  let api_key := unwrap_or_empty (api_key config) in
  if String.eqb api_id "" then Some (Err (Config "Youdao API ID not configured"))
  else if String.eqb api_key "" then Some (Err (Config "Youdao API Key not configured"))
  else
    let salt := new_salt in
    match now_secs with
    | Err e => Some (Err e)
    | Ok secs =>
        let curtime := usize_to_string secs in
        match sign_input query with
        | None => None
        | Some input =>
            let raw_sign := api_id ++ input ++ salt ++ curtime ++ api_key in
            let sign := sha256_hex raw_sign in
            let params := [("q", query); ("from", "auto"); ("to", "auto");
                           ("appKey", api_id); ("salt", salt); ("sign", sign);
                           ("signType", "v3"); ("curtime", curtime)] in
            match youdao_get params with
            | Err e => Some (Err e)
            | Ok response => Some (youdao_result query response)
            end
        end
    end.
End YoudaoClient.

(** *** Concrete inputs for the Youdao client, the batch insert and the migration *)

(** 21 bytes of UTF-8; byte 10 is inside the fourth character. *)
Definition cjk_query : string := "中文中文中文中".
Definition demo_config : YoudaoConfig := mkYoudaoConfig (Some "app") (Some "secret").
Definition demo_response : Youdao.YoudaoResponse :=
  Youdao.mkYoudaoResponse (Some ["hello"]) (Some (Youdao.mkBasicInfo (Some "həˈləʊ") (Some ["int. greeting"])))
    (Some [Youdao.mkWebTranslation "hello world" ["你好世界"; "世界你好"]]) "0".
(** A server that answers every request with [demo_response]. *)
Definition demo_get (params : list (string * string)) : Result Youdao.YoudaoResponse KdError :=
  Ok demo_response.

(** What [query_youdao_impl] builds from [demo_response] for ["hello"]. *)
Definition demo_result : QueryResult :=
  set_found
    (set_examples
       (set_translations
          (set_pronunciation (set_source (QueryResult_new "hello" false) (Online Youdao)) (Some "həˈləʊ"))
          ["hello"; "int. greeting"])
       [("hello world", "你好世界; 世界你好")])
    true.

(** Two records under ["cat"], then one under ["dog"]. *)
Definition batch_items : list (string * QueryResult) :=
  [("cat", QueryResult_new "cat" false); ("cat", sample_record); ("dog", QueryResult_new "dog" false)].

Definition batch_run : Result nat KdError * Connection :=
  batch_insert_cache_impl frame_encode 0 empty_conn batch_items.

(** Two records with the same three pronunciation fields. *)
Definition same_pron (r r' : QueryResult) : Prop :=
  pronunciation r = pronunciation r' /\ pronunciation_us r = pronunciation_us r' /\
  pronunciation_uk r = pronunciation_uk r'.

(** The stage of [convert_legacy] before the examples. *)
Definition legacy_pron_stage (legacy : Legacy.LegacyResult) : QueryResult :=
  let keyword := match Legacy.keyword legacy with Some k => k | None => "unknown" end in
  let result := set_found (QueryResult_new keyword false) true in
  match Legacy.pronounce legacy with
  | Some pron => convert_pronounce pron result
  | None => result
  end.

(** A target on which I/O, every statement and the commit succeed. *)
Definition healthy (c : Connection) : Prop :=
  io_ok c = true /\ commit_ok c = true /\ forall q, exec_ok c q = true.

(** A source row that [migrate_data] decodes (after the optional zlib step). *)
Definition row_decodes (zlib_decode : bytes -> option bytes)
  (legacy_from_slice : bytes -> option Legacy.LegacyResult) (row : string * bytes) : bool :=
  let final_bytes := match zlib_decode (snd row) with Some d => d | None => snd row end in
  negb (is_none (legacy_from_slice final_bytes)).

(** [legacy_rows] and an empty row. *)
Definition mixed_rows : list (string * bytes) := (legacy_rows ++ [("bad", [])])%list.

(** A [from_slice] that fails on empty input only. *)
Definition nonempty_legacy (b : bytes) : option Legacy.LegacyResult :=
  match b with [] => None | _ => Some legacy_sample end.

(* ================================================================== *)
(** * Properties *)

(** ** [convert_legacy] *)

Lemma convert_pronounce_found (pron : gmap string string) (r : QueryResult) :
  found (convert_pronounce pron r) = found r.
Proof.
  unfold convert_pronounce.
  repeat (case_match; simpl); reflexivity.
Qed.

Lemma fold_examples_found (egs : list (string * list (list string))) (r : QueryResult) :
  found (fold_left (fun result '(_, list_) =>
           set_examples result (push_pairs (examples result) list_)) egs r) = found r.
Proof.
  revert r; induction egs as [|[k l] egs IH]; intros r; simpl; [reflexivity|].
  rewrite IH; reflexivity.
Qed.

Lemma fold_collins_found (items : list Legacy.CollinsItem) (r : QueryResult) :
  found (fold_left convert_collins_item items r) = found r.
Proof.
  revert r; induction items as [|it items IH]; intros r; simpl; [reflexivity|].
  rewrite IH. unfold convert_collins_item. case_match; reflexivity.
Qed.

Lemma convert_legacy_found (legacy : Legacy.LegacyResult) :
  found (convert_legacy legacy) = true.
Proof.
  unfold convert_legacy. simpl.
  destruct (Legacy.collins legacy) as [c|].
  - destruct (Legacy.items c) as [items|].
    + rewrite fold_collins_found.
      destruct (Legacy.rank c); simpl;
      destruct (Legacy.examples legacy); rewrite ?fold_examples_found;
      destruct (Legacy.paraphrase legacy); simpl;
      destruct (Legacy.pronounce legacy); rewrite ?convert_pronounce_found; reflexivity.
    + destruct (Legacy.rank c); simpl;
      destruct (Legacy.examples legacy); rewrite ?fold_examples_found;
      destruct (Legacy.paraphrase legacy); simpl;
      destruct (Legacy.pronounce legacy); rewrite ?convert_pronounce_found; reflexivity.
  - simpl.
    destruct (Legacy.examples legacy); rewrite ?fold_examples_found;
    destruct (Legacy.paraphrase legacy); simpl;
    destruct (Legacy.pronounce legacy); rewrite ?convert_pronounce_found; reflexivity.
Qed.

(** ** [query_word] *)

Ltac unfold_lookup :=
  unfold query_word, db_step, online_step, cache_get, cache_insert, db_query,
    db_insert, remote_fetch, log_event, mbind, StM_bind, mret, StM_ret in *.

Section LookupFacts.

Variable Store : Type.
Variable query_cache : Store -> string -> Result (option QueryResult) KdError.
Variable insert_cache : Store -> string -> QueryResult -> Result Store KdError.
Variable query_youdao : string -> Result QueryResult KdError.
Variable now : Z.

Local Abbreviation qw := (query_word query_cache insert_cache query_youdao now).

(** C7: with [no_cache = true] (skipCache), [query_word] performs exactly one
    effect, the Remote Provider call: the memory cache and the store are
    neither read nor written, and the result is the provider's answer
    (with the long-text flag forced when asked). *)
Theorem query_word_no_cache_remote_only (q : string) (long : bool) (s : AppState Store) :
  qw q true long s =
  (match query_youdao q with
   | Ok r => Ok (if long then set_is_long_text r true else r)
   | Err e => Err e
   end,
   {| cache := cache s; db := db s; log := (log s ++ [RemoteFetch q])%list |}).
Proof.
  unfold_lookup; simpl.
  destruct (query_youdao q) as [r|e]; [|reflexivity].
  destruct long; simpl; reflexivity.
Qed.

(** C4: on a memory-cache miss and a Persistent Store hit, the memory
    cache receives the raw stored record, and the returned record keeps
    the stored [source] when it is [Online _] and is relabelled
    [OfflineDb] otherwise; the Remote Provider is not called. *)
Theorem query_word_store_hit (q : string) (long : bool) (s : AppState Store)
  (stored : QueryResult) :
  cache s !! q = None ->
  query_cache (db s) q = Ok (Some stored) ->
  qw q false long s =
  (Ok (if is_online (source stored) then stored else set_source stored OfflineDb),
   {| cache := <[q := stored]> (cache s); db := db s;
      log := (log s ++ [MemGet q; DbRead q; MemInsert q stored])%list |}).
Proof.
  intros Hmem Hdb. unfold_lookup; simpl.
  rewrite Hmem; simpl; rewrite Hdb; simpl.
  rewrite <- !app_assoc; simpl.
  destruct (is_online (source stored)); reflexivity.
Qed.

(** C1 (as the code does it): on a memory-cache miss, an error of the
    Persistent Store read is returned to the caller as it is; the Remote
    Provider is not called and nothing is cached. *)
Theorem query_word_store_error_propagates (q : string) (long : bool)
  (s : AppState Store) (e : KdError) :
  cache s !! q = None ->
  query_cache (db s) q = Err e ->
  qw q false long s =
  (Err e, {| cache := cache s; db := db s;
             log := (log s ++ [MemGet q; DbRead q])%list |}).
Proof.
  intros Hmem Hdb. unfold_lookup; simpl.
  rewrite Hmem; simpl; rewrite Hdb; simpl.
  rewrite <- !app_assoc; reflexivity.
Qed.

Lemma online_step_long_text (q : string) (no_cache long : bool)
  (s0 s' : AppState Store) (r : QueryResult) :
  online_step insert_cache query_youdao now q no_cache long s0 = (Ok r, s') ->
  exists p, query_youdao q = Ok p /\ is_long_text r = long || is_long_text p.
Proof.
  unfold online_step, remote_fetch, cache_insert, db_insert, log_event,
    mbind, StM_bind, mret, StM_ret.
  simpl. intros H.
  destruct (query_youdao q) as [p|e]; [|discriminate].
  exists p; split; [reflexivity|].
  repeat match type of H with
         | context [insert_cache ?a ?b ?c] => destruct (insert_cache a b c)
         | context [if ?b then _ else _] => destruct b eqn:?
         end; simpl in H; inversion H; subst; reflexivity.
Qed.

Lemma query_word_to_online (q : string) (no_cache long : bool) (s : AppState Store) :
  no_cache = true \/ (cache s !! q = None /\ query_cache (db s) q = Ok None) ->
  exists s0, qw q no_cache long s = online_step insert_cache query_youdao now q no_cache long s0.
Proof.
  intros [-> | [Hm Hn]].
  - exists s. reflexivity.
  - destruct no_cache; [exists s; reflexivity|].
    unfold query_word, db_step, cache_get, db_query, mbind, StM_bind, log_event.
    simpl. rewrite Hm. simpl. rewrite Hn. eexists. reflexivity.
Qed.

(** C10: the long-text flag of an answer. From the memory cache or the
    Persistent Store it is the flag of the cached or stored record,
    whatever [is_long_text] argument is given; only a record fetched from
    the Remote Provider gets [is_long_text || provider's flag]. *)
Theorem query_word_long_text_flag (q : string) (no_cache long : bool)
  (s s' : AppState Store) (r : QueryResult) :
  qw q no_cache long s = (Ok r, s') ->
  (no_cache = false -> forall c, cache s !! q = Some c ->
     is_long_text r = is_long_text c) /\
  (no_cache = false -> cache s !! q = None ->
     forall c, query_cache (db s) q = Ok (Some c) ->
     is_long_text r = is_long_text c) /\
  (no_cache = true \/ (cache s !! q = None /\ query_cache (db s) q = Ok None) ->
     exists p, query_youdao q = Ok p /\ is_long_text r = long || is_long_text p).
Proof.
  intros H. split; [|split].
  - intros -> c Hc. unfold_lookup. simpl in H. rewrite Hc in H. simpl in H.
    inversion H; subst; reflexivity.
  - intros -> Hmem c Hc. unfold_lookup. simpl in H. rewrite Hmem in H; simpl in H; rewrite Hc in H; simpl in H.
    destruct (is_online (source c)); inversion H; subst; reflexivity.
  - intros Hpath.
    destruct (query_word_to_online q no_cache long s Hpath) as [s0 Hs0].
    rewrite Hs0 in H.
    exact (online_step_long_text q no_cache long s0 s' r H).
Qed.

(** The lookup half of C5: every [DbWrite] a lookup adds to the log carries a
    record with [found = true]; [insert_cache] is called only then. *)
Lemma query_word_writes_found (q : string) (no_cache long : bool)
  (s s' : AppState Store) res :
  qw q no_cache long s = (res, s') ->
  forall q' r', In (DbWrite q' r') (log s') -> In (DbWrite q' r') (log s) \/ found r' = true.
Proof.
  intros H q' r' Hin.
  unfold_lookup.
  destruct no_cache; simpl in H;
  [|destruct (cache s !! q) as [c|]; simpl in H;
    [|destruct (query_cache (db s) q) as [[c|]|e]; simpl in H]].
  all: try (inversion H; subst; simpl in Hin; rewrite ?in_app_iff in Hin; simpl in Hin;
            intuition congruence).
  all: destruct (query_youdao q) as [p|e]; simpl in H;
       [|inversion H; subst; simpl in Hin; rewrite ?in_app_iff in Hin; simpl in Hin;
         try (intuition congruence)].
  all: match type of H with
       | context [if ?b then _ else _] => destruct b eqn:Hb
       end; simpl in H.
  all: repeat match type of H with
       | context [insert_cache ?a ?b ?c] => destruct (insert_cache a b c)
       end; inversion H; subst; simpl in Hin; rewrite ?in_app_iff in Hin; simpl in Hin.
  all: try (intuition congruence).
  all: repeat match type of Hin with _ \/ _ => destruct Hin as [Hin|Hin] end;
       try contradiction; try discriminate; try (left; assumption).
  all: injection Hin as <- <-; right; destruct long; exact Hb.
Qed.

(** C5: a record with [found = false] never reaches the Persistent Store:
    every store write a lookup performs (step 4) carries a record with
    [found = true], and every record [convert_legacy] produces for the
    migration has [found = true]. *)
Theorem found_false_never_persisted (q : string) (no_cache long : bool)
  (s s' : AppState Store) res :
  qw q no_cache long s = (res, s') ->
  (forall q' r', In (DbWrite q' r') (log s') ->
     In (DbWrite q' r') (log s) \/ found r' = true) /\
  (forall legacy, found (convert_legacy legacy) = true).
Proof.
  intros H. split.
  - exact (query_word_writes_found q no_cache long s s' res H).
  - exact convert_legacy_found.
Qed.

End LookupFacts.

(** ** Label conventions of the legacy [pron] map *)

Ltac labels_neq :=
  unfold label_us_primary, label_uk_primary, label_us_alternate, label_uk_alternate;
  discriminate.

Lemma convert_pronounce_conventions (us uk : option string)
  (others : gmap string string) (r : QueryResult) :
  others !! label_us_primary = None -> others !! label_uk_primary = None ->
  others !! label_us_alternate = None -> others !! label_uk_alternate = None ->
  convert_pronounce (pron_map label_us_alternate label_uk_alternate us uk others) r =
  convert_pronounce (pron_map label_us_primary label_uk_primary us uk others) r.
Proof.
  intros H1 H2 H3 H4.
  unfold convert_pronounce, pron_map.
  destruct us as [us|], uk as [uk|]; cbn beta iota zeta;
    repeat first [ rewrite lookup_insert_eq
                 | rewrite lookup_insert_ne by labels_neq
                 | rewrite H1 | rewrite H2 | rewrite H3 | rewrite H4 ];
    reflexivity.
Qed.

(** C9: convention independence. A legacy record whose [pron] map holds
    the two slots under the alternate labels ["us"]/["uk"] converts to
    the same [QueryResult] (so in particular to the same
    [pronunciation_us], [pronunciation_uk] and [pronunciation]) as the
    same record with the slots under the primary labels ["美"]/["英"],
    for any values of the slots and any entries under other labels. *)
Theorem convert_legacy_convention_independent (legacy : Legacy.LegacyResult)
  (us uk : option string) (others : gmap string string) :
  others !! label_us_primary = None -> others !! label_uk_primary = None ->
  others !! label_us_alternate = None -> others !! label_uk_alternate = None ->
  convert_legacy (with_pronounce legacy (pron_map label_us_alternate label_uk_alternate us uk others)) =
  convert_legacy (with_pronounce legacy (pron_map label_us_primary label_uk_primary us uk others)).
Proof.
  intros H1 H2 H3 H4.
  unfold convert_legacy, with_pronounce. cbn [Legacy.pronounce Legacy.keyword
    Legacy.paraphrase Legacy.examples Legacy.collins].
  rewrite convert_pronounce_conventions by assumption.
  reflexivity.
Qed.

(** ** The JSON text layer: what the writer writes, the reader reads *)

#[local] Arguments String.append : simpl nomatch.

Lemma str_app_assoc (a b c : string) : (a ++ b) ++ c = a ++ (b ++ c).
Proof. induction a as [|x a IH]; simpl; [reflexivity | now rewrite IH]. Qed.

Lemma str_app_nil (a : string) : a ++ "" = a.
Proof. induction a as [|x a IH]; simpl; [reflexivity | now rewrite IH]. Qed.

Lemma str_length_app (a b : string) : String.length (a ++ b) = (String.length a + String.length b)%nat.
Proof. induction a as [|x a IH]; simpl; [reflexivity | now rewrite IH]. Qed.

Lemma parse_escape_char (c : ascii) (t : string) :
  parse_str_body (escape_char c ++ t) =
  match parse_str_body t with Some (str, r) => Some (String c str, r) | None => None end.
Proof. destruct c as [[] [] [] [] [] [] [] []]; reflexivity. Qed.

Lemma parse_escaped_str (s rest : string) :
  parse_str_body (escape_str s ++ String dq rest) = Some (s, rest).
Proof.
  induction s as [|c s IH]; [reflexivity|].
  simpl. rewrite str_app_assoc, parse_escape_char, IH. reflexivity.
Qed.

Lemma write_str_app (s rest : string) :
  write_str s ++ rest = String dq (escape_str s ++ String dq rest).
Proof. unfold write_str. simpl. rewrite str_app_assoc. reflexivity. Qed.


Lemma read_digits_write_uint (u : Decimal.uint) (rest : string) :
  follows rest -> read_digits (write_uint u ++ rest) = (u, rest).
Proof.
  intros Hf. induction u; simpl; try (rewrite IHu; reflexivity).
  destruct rest as [|c t]; [reflexivity|].
  destruct Hf as [-> | [-> | ->]]; reflexivity.
Qed.

Lemma parse_uint_write (u : Decimal.uint) (rest : string) :
  follows rest -> u <> Decimal.Nil -> leading_zero u = false ->
  parse_uint (write_uint u ++ rest) = Some (u, rest).
Proof.
  intros Hf Hn Hl. unfold parse_uint. rewrite (read_digits_write_uint u rest Hf).
  assert (Hs : starts_float rest = false).
  { destruct rest as [|c t]; [reflexivity|]. destruct Hf as [-> | [-> | ->]]; reflexivity. }
  rewrite Hl, Hs. destruct u; [contradiction | reflexivity ..].
Qed.

Lemma nzhead_not_D0 (d e : Decimal.uint) : Decimal.nzhead d <> Decimal.D0 e.
Proof. induction d; simpl; congruence. Qed.

Lemma unorm_no_leading_zero (d : Decimal.uint) :
  leading_zero d = true -> Decimal.unorm d <> d.
Proof.
  destruct d as [|d| | | | | | | | |]; try discriminate.
  destruct d; try discriminate; intros _; unfold Decimal.unorm; simpl;
  match goal with |- context [Decimal.nzhead ?x] =>
    destruct (Decimal.nzhead x) eqn:E; try discriminate;
    exfalso; eapply nzhead_not_D0; exact E end.
Qed.

Lemma leading_zero_to_uint (p : positive) : leading_zero (Pos.to_uint p) = false.
Proof.
  destruct (leading_zero (Pos.to_uint p)) eqn:E; [|reflexivity].
  exfalso. apply (unorm_no_leading_zero _ E).
  pose proof (DecimalPos.Unsigned.to_of (Pos.to_uint p)) as H.
  rewrite DecimalPos.Unsigned.of_to in H. simpl in H. symmetry. exact H.
Qed.

Lemma parse_value_at_digit (fuel : nat) (c : ascii) (t : string) :
  digit_ctor c <> None ->
  parse_value (S fuel) (String c t) =
  match parse_uint (String c t) with
  | Some (u, r') => Some (JNumber (Z.of_int (Decimal.Pos u)), r')
  | None => None
  end.
Proof.
  intros H. destruct c as [[] [] [] [] [] [] [] []];
    solve [reflexivity | exfalso; apply H; reflexivity].
Qed.

Lemma write_uint_head (u : Decimal.uint) (rest : string) :
  u <> Decimal.Nil ->
  exists c t, write_uint u ++ rest = String c t /\ digit_ctor c <> None.
Proof.
  intros Hn. destruct u; [contradiction | ..];
    (eexists _, _; split; [reflexivity | discriminate]).
Qed.

Lemma parse_value_uint (fuel : nat) (u : Decimal.uint) (rest : string) :
  follows rest -> u <> Decimal.Nil -> leading_zero u = false ->
  parse_value (S fuel) (write_uint u ++ rest) = Some (JNumber (Z.of_int (Decimal.Pos u)), rest).
Proof.
  intros Hf Hn Hl.
  destruct (write_uint_head u rest Hn) as (c & t & Heq & Hd).
  rewrite Heq, (parse_value_at_digit fuel c t Hd), <- Heq.
  rewrite (parse_uint_write u rest Hf Hn Hl). reflexivity.
Qed.

Lemma parse_write_int (fuel : nat) (z : Z) (rest : string) :
  follows rest -> parse_value (S fuel) (write_int z ++ rest) = Some (JNumber z, rest).
Proof.
  intros Hf.
  destruct z as [|p|p].
  - apply (parse_value_uint fuel (Decimal.D0 Decimal.Nil) rest Hf); [discriminate | reflexivity].
  - change (write_int (Zpos p)) with (write_uint (Pos.to_uint p)).
    rewrite (parse_value_uint fuel _ rest Hf (DecimalPos.Unsigned.to_uint_nonnil p) (leading_zero_to_uint p)).
    change (Decimal.Pos (Pos.to_uint p)) with (Z.to_int (Zpos p)).
    rewrite DecimalZ.of_to. reflexivity.
  - change (write_int (Zneg p)) with (String "-" (write_uint (Pos.to_uint p))).
    simpl.
    rewrite (parse_uint_write _ rest Hf (DecimalPos.Unsigned.to_uint_nonnil p) (leading_zero_to_uint p)).
    pose proof (DecimalZ.of_to (Zneg p)) as E. simpl in E. rewrite E. reflexivity.
Qed.

Lemma digit_not_special (c : ascii) :
  digit_ctor c <> None -> is_ws c = false /\ c <> "]"%char /\ c <> "}"%char.
Proof.
  intros H. destruct c as [[] [] [] [] [] [] [] []];
    solve [exfalso; apply H; reflexivity | repeat split; discriminate].
Qed.

Lemma write_json_head (v : Value) (rest : string) :
  exists c t, write_json v ++ rest = String c t /\
    is_ws c = false /\ c <> "]"%char /\ c <> "}"%char.
Proof.
  destruct v as [| [] | z | s | l | l];
    try solve [eexists _, _; split; [reflexivity | repeat split; discriminate]].
  destruct z as [|p|p];
    try solve [eexists _, _; split; [reflexivity | repeat split; discriminate]].
  change (write_json (JNumber (Zpos p))) with (write_uint (Pos.to_uint p)).
  destruct (write_uint_head (Pos.to_uint p) rest (DecimalPos.Unsigned.to_uint_nonnil p))
    as (c & t & E & Hd).
  exists c, t. split; [exact E | exact (digit_not_special c Hd)].
Qed.

Lemma concat_head (sep x : string) (xs : list string) :
  exists X, String.concat sep (x :: xs) = x ++ X.
Proof.
  destruct xs as [|y xs].
  - exists "". rewrite str_app_nil. reflexivity.
  - exists (sep ++ String.concat sep (y :: xs)). reflexivity.
Qed.

Lemma skip_ws_head (c : ascii) (t : string) : is_ws c = false -> skip_ws (String c t) = String c t.
Proof. intros H. simpl. rewrite H. reflexivity. Qed.


Lemma parse_elems_write (l : list Value) :
  l <> [] -> Forall value_parses l ->
  forall fuel rest, (list_sum (map (fun x => S (value_size x)) l) <= fuel)%nat -> follows rest ->
  parse_elems fuel ((String.concat "," (map write_json l) ++ "]") ++ rest) = Some (l, rest).
Proof.
  induction l as [|v l IHl]; [congruence|].
  intros _ HF fuel rest Hs Hf.
  apply Forall_cons_1 in HF as [Hv HF].
  destruct fuel as [|f]; [simpl in Hs; lia|].
  simpl in Hs.
  destruct l as [|v2 l2].
  - simpl String.concat. rewrite str_app_assoc.
    cbn [parse_elems]. rewrite (Hv f ("]" ++ rest)) by (simpl; lia || auto).
    reflexivity.
  - assert (E : (String.concat "," (map write_json (v :: v2 :: l2)) ++ "]") ++ rest =
                write_json v ++ String "," ((String.concat "," (map write_json (v2 :: l2)) ++ "]") ++ rest)).
    { simpl. rewrite !str_app_assoc. reflexivity. }
    rewrite E.
    remember ((String.concat "," (map write_json (v2 :: l2)) ++ "]") ++ rest) as T eqn:ET.
    cbn [parse_elems].
    rewrite (Hv f) by (simpl; lia || auto).
    simpl skip_ws. cbv iota beta.
    rewrite ET, (IHl ltac:(discriminate) HF f rest) by (simpl in *; lia || auto).
    reflexivity.
Qed.


Lemma parse_member_head (k : string) (v : Value) (T : string) (fuel : nat) :
  parse_members (S fuel) (write_member (k, v) ++ T) =
  match parse_value fuel (write_json v ++ T) with
  | Some (v', r4) =>
      match skip_ws r4 with
      | String d r5 =>
          if Ascii.eqb d "," then
            match parse_members fuel r5 with
            | Some (kvs, r6) => Some ((k, v') :: kvs, r6)
            | None => None
            end
          else if Ascii.eqb d "}" then Some ([(k, v')], r5)
          else None
      | EmptyString => None
      end
  | None => None
  end.
Proof.
  unfold write_member. simpl fst. simpl snd.
  rewrite str_app_assoc, write_str_app.
  remember (write_json v ++ T) as W eqn:EW.
  change (String ":" (write_json v) ++ T) with (String ":" (write_json v ++ T)).
  rewrite <- EW.
  cbn [parse_members]. simpl skip_ws. cbv iota beta.
  rewrite parse_escaped_str. reflexivity.
Qed.

Lemma parse_members_write (l : list (string * Value)) :
  l <> [] -> Forall (fun kv => value_parses (snd kv)) l ->
  forall fuel rest, (list_sum (map (fun kv => S (value_size (snd kv))) l) <= fuel)%nat -> follows rest ->
  parse_members fuel ((String.concat "," (map write_member l) ++ "}") ++ rest) = Some (l, rest).
Proof.
  induction l as [|[k v] l IHl]; [congruence|].
  intros _ HF fuel rest Hs Hf.
  apply Forall_cons_1 in HF as [Hv HF]. simpl snd in Hv.
  destruct fuel as [|f]; [simpl in Hs; lia|].
  simpl in Hs.
  destruct l as [|kv2 l2].
  - simpl String.concat. rewrite str_app_assoc, parse_member_head.
    rewrite (Hv f ("}" ++ rest)) by (simpl; lia || auto).
    reflexivity.
  - assert (E : (String.concat "," (map write_member ((k, v) :: kv2 :: l2)) ++ "}") ++ rest =
                write_member (k, v) ++ String "," ((String.concat "," (map write_member (kv2 :: l2)) ++ "}") ++ rest)).
    { simpl. rewrite !str_app_assoc. reflexivity. }
    rewrite E.
    remember ((String.concat "," (map write_member (kv2 :: l2)) ++ "}") ++ rest) as T eqn:ET.
    rewrite parse_member_head.
    rewrite (Hv f) by (simpl; lia || auto).
    simpl skip_ws. cbv iota beta.
    rewrite ET, (IHl ltac:(discriminate) HF f rest) by (simpl in *; lia || auto).
    reflexivity.
Qed.

Lemma parse_write_value (v : Value) : value_parses v.
Proof.
  induction v as [| b | z | s | l IH | l IH] using value_ind';
    intros fuel rest Hs Hf; (destruct fuel as [|f]; [simpl in Hs; lia|]).
  - reflexivity.
  - destruct b; reflexivity.
  - apply parse_write_int. exact Hf.
  - change (write_json (JString s)) with (write_str s). rewrite write_str_app.
    simpl. rewrite parse_escaped_str. reflexivity.
  - destruct l as [|v l'].
    + reflexivity.
    + simpl in Hs.
      change (write_json (JArray (v :: l')) ++ rest) with
        (String "[" ((String.concat "," (map write_json (v :: l')) ++ "]") ++ rest)).
      destruct (concat_head "," (write_json v) (map write_json l')) as [X HX].
      destruct (write_json_head v (X ++ ("]" ++ rest))) as (c & t & Ec & Hws & Hc1 & _).
      assert (Hsk : skip_ws ((String.concat "," (map write_json (v :: l')) ++ "]") ++ rest) = String c t).
      { simpl map. rewrite HX, !str_app_assoc, Ec.
        apply skip_ws_head. exact Hws. }
      remember ((String.concat "," (map write_json (v :: l')) ++ "]") ++ rest) as R eqn:ER.
      cbn [parse_value]. simpl skip_ws. cbv iota beta.
      rewrite Hsk. apply Ascii.eqb_neq in Hc1. rewrite Hc1.
      assert (Hne : v :: l' <> []) by discriminate.
      rewrite ER, (parse_elems_write (v :: l') Hne IH f rest ltac:(simpl; lia) Hf).
      reflexivity.
  - destruct l as [|[k v] l'].
    + reflexivity.
    + simpl in Hs.
      change (write_json (JObject ((k, v) :: l')) ++ rest) with
        (String "{" ((String.concat "," (map write_member ((k, v) :: l')) ++ "}") ++ rest)).
      destruct (concat_head "," (write_member (k, v)) (map write_member l')) as [X HX].
      assert (Hsk : exists t, skip_ws ((String.concat "," (map write_member ((k, v) :: l')) ++ "}") ++ rest) = String dq t).
      { simpl map. rewrite HX. eexists. reflexivity. }
      destruct Hsk as [t Hsk].
      remember ((String.concat "," (map write_member ((k, v) :: l')) ++ "}") ++ rest) as R eqn:ER.
      cbn [parse_value]. simpl skip_ws. cbv iota beta.
      rewrite Hsk.
      assert (Hne : (k, v) :: l' <> []) by discriminate.
      rewrite ER, (parse_members_write ((k, v) :: l') Hne IH f rest ltac:(simpl; lia) Hf).
      reflexivity.
Qed.

Lemma concat_comma_length (ls : list string) :
  (list_sum (map (fun x => S (String.length x)) ls) <= S (String.length (String.concat "," ls)))%nat.
Proof.
  induction ls as [|x ls IH]; [simpl; lia|].
  destruct ls as [|y ls].
  - simpl. lia.
  - change (String.concat "," (x :: y :: ls)) with (x ++ String "," (String.concat "," (y :: ls))).
    rewrite str_length_app. simpl in IH |- *. lia.
Qed.

Lemma list_sum_map_le {A} (f g : A -> nat) (l : list A) :
  Forall (fun x => (f x <= g x)%nat) l ->
  (list_sum (map f l) <= list_sum (map g l))%nat.
Proof.
  induction 1 as [|x l Hx _ IH]; simpl; lia.
Qed.

Lemma write_int_nonempty (z : Z) : (1 <= String.length (write_int z))%nat.
Proof.
  destruct z as [|p|p]; [simpl; lia | | simpl; lia].
  change (write_int (Zpos p)) with (write_uint (Pos.to_uint p)).
  destruct (write_uint_head (Pos.to_uint p) "" (DecimalPos.Unsigned.to_uint_nonnil p)) as (c & t & E & _).
  rewrite str_app_nil in E. rewrite E. simpl. lia.
Qed.

Lemma value_size_le_length (v : Value) : (value_size v <= String.length (write_json v))%nat.
Proof.
  induction v as [| b | z | s | l IH | l IH] using value_ind'.
  - simpl. lia.
  - destruct b; simpl; lia.
  - apply write_int_nonempty.
  - simpl. lia.
  - change (String.length (write_json (JArray l))) with
      (S (String.length (String.concat "," (map write_json l) ++ "]"))).
    rewrite str_length_app. simpl value_size.
    pose proof (concat_comma_length (map write_json l)) as H.
    rewrite map_map in H.
    assert (H2 : (list_sum (map (fun x => S (value_size x)) l) <=
                  list_sum (map (fun x => S (String.length (write_json x))) l))%nat).
    { apply list_sum_map_le. eapply Forall_impl; [exact IH|]. simpl. intros x Hx. lia. }
    simpl. lia.
  - change (String.length (write_json (JObject l))) with
      (S (String.length (String.concat "," (map write_member l) ++ "}"))).
    rewrite str_length_app. simpl value_size.
    pose proof (concat_comma_length (map write_member l)) as H.
    rewrite map_map in H.
    assert (H2 : (list_sum (map (fun kv => S (value_size (snd kv))) l) <=
                  list_sum (map (fun kv => S (String.length (write_member kv))) l))%nat).
    { apply list_sum_map_le. eapply Forall_impl; [exact IH|]. simpl. intros [k x] Hx.
      unfold write_member. simpl fst; simpl snd.
      rewrite str_length_app. simpl in Hx |- *. lia. }
    simpl. lia.
Qed.

Lemma from_str_value_write (v : Value) : from_str_value (write_json v) = Some v.
Proof.
  unfold from_str_value.
  pose proof (parse_write_value v (S (String.length (write_json v))) "") as H.
  rewrite str_app_nil in H.
  rewrite H by (pose proof (value_size_le_length v); simpl; lia || exact I).
  reflexivity.
Qed.


Lemma de_option_string (o : option string) :
  de_option de_string (ser_option JString o) = Some o.
Proof. destruct o; reflexivity. Qed.

Lemma de_option_i64 (o : option Z) :
  match o with Some t => in_i64 t | None => True end ->
  de_option de_i64 (ser_option JNumber o) = Some o.
Proof.
  destruct o as [t|]; [|reflexivity]. unfold in_i64. intros [H1 H2].
  simpl. apply Z.leb_le in H1. apply Z.leb_le in H2. rewrite H1, H2. reflexivity.
Qed.

Lemma de_pair_ser (p : string * string) : de_pair (ser_pair p) = Some p.
Proof. destruct p; reflexivity. Qed.

Lemma mapM_map_ser {A} (de : Value -> option A) (ser : A -> Value) (l : list A) :
  (forall a, de (ser a) = Some a) -> mapM de (map ser l) = Some l.
Proof.
  intros H. induction l as [|a l IH]; [reflexivity|].
  simpl. rewrite H. simpl. rewrite IH. reflexivity.
Qed.

Lemma mapM_string (l : list string) : mapM de_string (map JString l) = Some l.
Proof. apply mapM_map_ser. reflexivity. Qed.

Lemma mapM_pair (l : list (string * string)) : mapM de_pair (map ser_pair l) = Some l.
Proof. apply mapM_map_ser. exact de_pair_ser. Qed.


Lemma de_source_ser (s : QuerySource) : de_source (ser_source s) = Some s.
Proof. destruct s as [| |[]]; reflexivity. Qed.

Lemma de_collins_item_ser (i : CollinsDisplayItem) : de_collins_item (ser_collins_item i) = Some i.
Proof.
  destruct i as [a m e]. unfold de_collins_item, ser_collins_item. simpl.
  unfold de_optional, de_required. simpl.
  repeat first [rewrite de_option_string | rewrite mapM_pair | progress simpl].
  reflexivity.
Qed.

Lemma de_query_result_ser (r : QueryResult) :
  cached_at_in_i64 r -> de_query_result (ser_query_result r) = Some r.
Proof.
  destruct r as [q f l p pus puk t e ci cr s ca]. unfold cached_at_in_i64. simpl. intros Hca.
  unfold de_query_result, ser_query_result. simpl.
  unfold de_optional, de_required. simpl.
  pose proof (mapM_map_ser de_collins_item ser_collins_item ci de_collins_item_ser) as Hci.
  repeat first [rewrite de_option_string | rewrite mapM_pair | rewrite mapM_string
               | rewrite Hci | rewrite de_source_ser | rewrite (de_option_i64 ca Hca)
               | progress simpl].
  reflexivity.
Qed.

Lemma from_slice_to_vec (r : QueryResult) :
  cached_at_in_i64 r ->
  from_slice (list_byte_of_string (write_json (ser_query_result r))) = Some r.
Proof.
  intros H. unfold from_slice.
  rewrite string_of_list_byte_of_string, from_str_value_write.
  simpl. apply de_query_result_ser. exact H.
Qed.

(** ** The store codec: C8 *)

Lemma frame_lossless (b c : bytes) : frame_encode b = Some c -> frame_decode c = Some b.
Proof. unfold frame_encode. intros H. injection H as <-. reflexivity. Qed.

Section Codec.

Variable zstd_encode_all : bytes -> option bytes.
Variable zstd_decode_all : bytes -> option bytes.
Variable now : Z.
(** zstd is lossless: [decode_all] gives back what [encode_all] compressed. *)
Hypothesis zstd_lossless :
  forall b c, zstd_encode_all b = Some c -> zstd_decode_all c = Some b.

(** C8: the store codec round-trips every record. If [insert_cache]
    stores [r] under a key (serde_json [to_vec], then zstd [encode_all]),
    [query_cache] for that key (zstd [decode_all], then serde_json
    [from_slice]) returns a record equal to [r] in every field. This holds
    for every record, with [found = true] or not; its [cached_at], a Rust
    [i64], lies in the [i64] range. *)
Theorem store_codec_roundtrip (db db' : Connection) (q : string) (r : QueryResult) :
  cached_at_in_i64 r ->
  insert_cache_impl zstd_encode_all now db q r = Ok db' ->
  query_cache_impl zstd_decode_all db' q = Ok (Some r).
Proof.
  intros Hr Hins.
  unfold insert_cache_impl, to_vec in Hins.
  destruct (zstd_encode_all _) as [compressed|] eqn:Ez; [|discriminate].
  destruct (io_ok db) eqn:Hio; [|discriminate].
  destruct (exec_ok db q) eqn:Hex; [|discriminate].
  simpl in Hins. injection Hins as <-.
  unfold query_cache_impl. simpl. rewrite Hio. simpl.
  rewrite lookup_insert_eq. simpl.
  rewrite (zstd_lossless _ _ Ez).
  rewrite (from_slice_to_vec r Hr). reflexivity.
Qed.

End Codec.

(** ** [batch_insert_cache_impl]: C6 and C3 *)

Lemma filter_map_length {A B} (f : A -> option B) (l : list A) :
  (length (filter_map f l) + length (List.filter (fun x => is_none (f x)) l))%nat = length l.
Proof.
  induction l as [|x l IH]; [reflexivity|].
  simpl. destruct (f x); simpl; lia.
Qed.

Lemma prepare_item_key (zstd_encode_all : bytes -> option bytes)
  (it : string * QueryResult) (p : string * bytes * nat * nat) :
  prepare_item zstd_encode_all it = Some p -> prepared_key p = fst it.
Proof.
  destruct it as [q r]. unfold prepare_item, to_vec.
  destruct (zstd_encode_all _); [|discriminate].
  intros H. injection H as <-. reflexivity.
Qed.

Lemma exec_all_ok (now : Z) (db : Connection) (ps : list (string * bytes * nat * nat)) :
  Forall (fun p => exec_ok db (prepared_key p) = true) ps ->
  exec_all now db ps = (length ps, fold_left (put_prepared now) ps (rows db)).
Proof.
  intros H. unfold exec_all.
  match goal with |- fold_left ?f _ _ = _ => remember f as step eqn:Estep end.
  assert (G : forall n rs, Forall (fun p => exec_ok db (prepared_key p) = true) ps ->
            fold_left step ps (n, rs) = ((n + length ps)%nat, fold_left (put_prepared now) ps rs)).
  { induction ps as [|p ps IH]; intros n rs Hf; simpl.
    - f_equal. lia.
    - apply Forall_cons_1 in Hf as [Hp Hf].
      destruct p as [[[q c] cl] ol].
      replace (step (n, rs) (q, c, cl, ol)) with (S n, put_prepared now rs (q, c, cl, ol))
        by (subst step; simpl in Hp |- *; rewrite Hp; reflexivity).
      rewrite IH by exact Hf. f_equal. lia. }
  rewrite G by exact H. reflexivity.
Qed.

(** C6: of [N] items, [M < N] fail to encode, and the statements for the
    others succeed. Then exactly the [N - M] encodable items are prepared
    (the failures are dropped before the transaction opens), one
    [INSERT OR REPLACE] is committed for each of them, in order, and the
    call returns [Ok (N - M)]. *)
Theorem batch_insert_skips_encode_failures (zstd_encode_all : bytes -> option bytes)
  (now : Z) (db : Connection) (items : list (string * QueryResult)) :
  (encode_failures zstd_encode_all items < length items)%nat ->
  io_ok db = true -> commit_ok db = true ->
  Forall (fun p => exec_ok db (prepared_key p) = true)
    (filter_map (prepare_item zstd_encode_all) items) ->
  length (filter_map (prepare_item zstd_encode_all) items) =
    (length items - encode_failures zstd_encode_all items)%nat /\
  batch_insert_cache_impl zstd_encode_all now db items =
    (Ok (length items - encode_failures zstd_encode_all items)%nat,
     set_rows db (fold_left (put_prepared now)
                    (filter_map (prepare_item zstd_encode_all) items) (rows db))).
Proof.
  intros HM Hio Hc Hok.
  pose proof (filter_map_length (prepare_item zstd_encode_all) items) as Hl.
  unfold encode_failures in *.
  assert (Hlen : length (filter_map (prepare_item zstd_encode_all) items) =
                 (length items - length (List.filter (fun it => is_none (prepare_item zstd_encode_all it)) items))%nat)
    by lia.
  split; [exact Hlen|].
  unfold batch_insert_cache_impl.
  rewrite (exec_all_ok now db _ Hok), Hio, Hc, <- Hlen.
  destruct (filter_map (prepare_item zstd_encode_all) items) as [|p ps] eqn:E.
  - simpl in Hlen. lia.
  - reflexivity.
Qed.

(** C3 (as the code does it): when at least one item is encoded and the
    transaction fails to commit, [batch_insert_cache_impl] returns the
    commit error (not a success count) and the rows are left as they
    were (the transaction is rolled back). *)
Theorem batch_insert_commit_failure (zstd_encode_all : bytes -> option bytes)
  (now : Z) (db : Connection) (items : list (string * QueryResult)) :
  filter_map (prepare_item zstd_encode_all) items <> [] ->
  io_ok db = true -> commit_ok db = false ->
  batch_insert_cache_impl zstd_encode_all now db items = (Err commit_error, db).
Proof.
  intros Hne Hio Hc. unfold batch_insert_cache_impl.
  destruct (filter_map (prepare_item zstd_encode_all) items) as [|p ps]; [contradiction|].
  simpl. rewrite Hio. simpl.
  destruct (exec_all now db (p :: ps)). rewrite Hc. reflexivity.
Qed.

(** ** [migrate_data]: C2 *)

(** C2 (the final flush): two source rows that both decode, a target
    whose [COMMIT] fails. The two rows form the final partial batch; its
    write fails, and [error_count] ends at 1, not at the batch size 2,
    while [count] stays 0. (Inside the loop a failed batch adds
    [BATCH_SIZE], the size of the batch.) *)
Theorem migrate_final_batch_failure_counts_one :
  let st := migrate_table (fun _ => None) (fun _ => Some legacy_sample)
              (batch_insert_cache_impl frame_encode 0) commit_failing_conn legacy_rows in
  length (batch st) = 2%nat /\ error_count st = 1%nat /\ count st = 0%nat.
Proof. vm_compute. repeat split. Qed.

(** ** Concrete runs *)

(** C1 refuted: the store read of ["cat"] fails (its bytes are no zstd
    frame), and [query_word] returns that error to the caller; the
    Remote Provider is never called. *)
Lemma query_word_store_error_counterexample :
  query_cache_impl frame_decode corrupt_conn "cat" = Err (conversion_error "zstd") /\
  query_word (query_cache_impl frame_decode) (insert_cache_impl frame_encode 0)
    youdao_stub 0 "cat" false false (init_state corrupt_conn) =
  (Err (conversion_error "zstd"),
   {| cache := ∅; db := corrupt_conn; log := [MemGet "cat"; DbRead "cat"] |}).
Proof. split; vm_compute; reflexivity. Qed.

Lemma query_word_store_error_propagates_witness :
  (cache (init_state corrupt_conn) : gmap string QueryResult) !! "cat" = None /\
  query_cache_impl frame_decode (db (init_state corrupt_conn)) "cat" = Err (conversion_error "zstd") /\
  query_word (query_cache_impl frame_decode) (insert_cache_impl frame_encode 0)
    youdao_stub 0 "cat" false true (init_state corrupt_conn) =
  (Err (conversion_error "zstd"),
   {| cache := cache (init_state corrupt_conn); db := db (init_state corrupt_conn);
      log := (log (init_state corrupt_conn) ++ [MemGet "cat"; DbRead "cat"])%list |}).
Proof.
  split; [reflexivity|]. split; [vm_compute; reflexivity|].
  apply (query_word_store_error_propagates Connection (query_cache_impl frame_decode)
           (insert_cache_impl frame_encode 0) youdao_stub 0 "cat" true
           (init_state corrupt_conn) (conversion_error "zstd")); vm_compute; reflexivity.
Defined.

(** C3 refuted: one encodable item, a failing [COMMIT]: the call returns
    an error, not [Ok 0]. *)
Lemma batch_insert_commit_failure_counterexample :
  batch_insert_cache_impl frame_encode 0 commit_failing_conn [("cat", sample_record)] =
    (Err commit_error, commit_failing_conn) /\
  fst (batch_insert_cache_impl frame_encode 0 commit_failing_conn [("cat", sample_record)])
    <> Ok 0%nat.
Proof. split; vm_compute; [reflexivity | discriminate]. Qed.

Lemma batch_insert_commit_failure_witness :
  filter_map (prepare_item frame_encode) [("cat", sample_record)] <> [] /\
  io_ok commit_failing_conn = true /\ commit_ok commit_failing_conn = false /\
  batch_insert_cache_impl frame_encode 0 commit_failing_conn [("cat", sample_record)] =
    (Err commit_error, commit_failing_conn).
Proof.
  split; [vm_compute; discriminate|]. split; [reflexivity|]. split; [reflexivity|].
  apply batch_insert_commit_failure; [vm_compute; discriminate | reflexivity | reflexivity].
Defined.

Lemma query_word_store_hit_witness :
  (cache (init_state stored_conn) : gmap string QueryResult) !! "cat" = None /\
  query_cache_impl frame_decode (db (init_state stored_conn)) "cat" = Ok (Some sample_record) /\
  query_word (query_cache_impl frame_decode) (insert_cache_impl frame_encode 0)
    youdao_stub 0 "cat" false false (init_state stored_conn) =
  (Ok (if is_online (source sample_record) then sample_record
       else set_source sample_record OfflineDb),
   {| cache := <[ "cat" := sample_record ]> (cache (init_state stored_conn));
      db := db (init_state stored_conn);
      log := (log (init_state stored_conn) ++
              [MemGet "cat"; DbRead "cat"; MemInsert "cat" sample_record])%list |}).
Proof.
  split; [reflexivity|]. split; [vm_compute; reflexivity|].
  apply (query_word_store_hit Connection (query_cache_impl frame_decode)
           (insert_cache_impl frame_encode 0) youdao_stub 0 "cat" false
           (init_state stored_conn) sample_record); vm_compute; reflexivity.
Defined.

Lemma found_false_never_persisted_witness :
  let run := query_word (query_cache_impl frame_decode) (insert_cache_impl frame_encode 0)
               youdao_stub 0 "cat" false false (init_state empty_conn) in
  run = (fst run, snd run) /\
  (forall q' r', In (DbWrite q' r') (log (snd run)) ->
     In (DbWrite q' r') (log (init_state empty_conn)) \/ found r' = true) /\
  (forall legacy, found (convert_legacy legacy) = true).
Proof.
  intros run. split; [reflexivity|].
  apply (found_false_never_persisted Connection (query_cache_impl frame_decode)
           (insert_cache_impl frame_encode 0) youdao_stub 0 "cat" false false
           (init_state empty_conn) (snd run) (fst run)).
  reflexivity.
Defined.

Lemma query_word_long_text_flag_witness :
  let run := query_word (query_cache_impl frame_decode) (insert_cache_impl frame_encode 0)
               youdao_stub 0 "cat" false true (init_state empty_conn) in
  run = (Ok fresh_cat, snd run) /\
  (false = false -> forall c, cache (init_state empty_conn) !! "cat" = Some c ->
     is_long_text fresh_cat = is_long_text c) /\
  (false = false -> cache (init_state empty_conn) !! "cat" = None ->
     forall c, query_cache_impl frame_decode (db (init_state empty_conn)) "cat" = Ok (Some c) ->
     is_long_text fresh_cat = is_long_text c) /\
  (false = true \/ (cache (init_state empty_conn) !! "cat" = None /\
                    query_cache_impl frame_decode (db (init_state empty_conn)) "cat" = Ok None) ->
     exists p, youdao_stub "cat" = Ok p /\ is_long_text fresh_cat = true || is_long_text p).
Proof.
  intros run. split; [vm_compute; reflexivity|].
  apply (query_word_long_text_flag Connection (query_cache_impl frame_decode)
           (insert_cache_impl frame_encode 0) youdao_stub 0 "cat" false true
           (init_state empty_conn) (snd run) fresh_cat).
  vm_compute; reflexivity.
Defined.

Lemma convert_legacy_convention_independent_witness :
  (∅ : gmap string string) !! label_us_primary = None /\
  (∅ : gmap string string) !! label_uk_primary = None /\
  (∅ : gmap string string) !! label_us_alternate = None /\
  (∅ : gmap string string) !! label_uk_alternate = None /\
  convert_legacy (with_pronounce legacy_sample
    (pron_map label_us_alternate label_uk_alternate (Some "kæt") (Some "kat") ∅)) =
  convert_legacy (with_pronounce legacy_sample
    (pron_map label_us_primary label_uk_primary (Some "kæt") (Some "kat") ∅)).
Proof.
  split; [reflexivity|]. split; [reflexivity|]. split; [reflexivity|]. split; [reflexivity|].
  apply (convert_legacy_convention_independent legacy_sample (Some "kæt") (Some "kat") ∅);
    reflexivity.
Defined.

Lemma store_codec_roundtrip_witness :
  cached_at_in_i64 sample_record /\
  insert_cache_impl frame_encode 0 empty_conn "cat" sample_record = Ok stored_conn /\
  query_cache_impl frame_decode stored_conn "cat" = Ok (Some sample_record).
Proof.
  assert (Hr : cached_at_in_i64 sample_record)
    by (vm_compute; split; discriminate).
  split; [exact Hr|]. split; [vm_compute; reflexivity|].
  apply (store_codec_roundtrip frame_encode frame_decode 0 frame_lossless
           empty_conn stored_conn "cat" sample_record Hr).
  vm_compute; reflexivity.
Defined.

Lemma batch_insert_skips_encode_failures_witness :
  let items := [("cat", sample_record); ("dog", QueryResult_new "dog" false);
                ("owl", QueryResult_new "owl" true)] in
  (encode_failures size_limited_encode items < length items)%nat /\
  io_ok empty_conn = true /\ commit_ok empty_conn = true /\
  Forall (fun p => exec_ok empty_conn (prepared_key p) = true)
    (filter_map (prepare_item size_limited_encode) items) /\
  encode_failures size_limited_encode items = 1%nat /\
  length (filter_map (prepare_item size_limited_encode) items) = 2%nat /\
  batch_insert_cache_impl size_limited_encode 0 empty_conn items =
    (Ok 2%nat, set_rows empty_conn (fold_left (put_prepared 0)
                  (filter_map (prepare_item size_limited_encode) items) (rows empty_conn))).
Proof.
  intros items.
  assert (H1 : (encode_failures size_limited_encode items < length items)%nat)
    by (vm_compute; lia).
  assert (H2 : Forall (fun p => exec_ok empty_conn (prepared_key p) = true)
                 (filter_map (prepare_item size_limited_encode) items))
    by (vm_compute; repeat constructor).
  assert (H3 : encode_failures size_limited_encode items = 1%nat) by (vm_compute; reflexivity).
  destruct (batch_insert_skips_encode_failures size_limited_encode 0 empty_conn items
              H1 eq_refl eq_refl H2) as [Hl Hb].
  rewrite H3 in Hl, Hb.
  repeat split; assumption.
Defined.

(* ------------------------------------------------------------------ *)
(** ** Further properties of the client, the lookup, the store and the migration *)

Lemma string_get_lt (s : string) (i : nat) :
  (i < String.length s)%nat -> exists c, String.get i s = Some c.
Proof.
  revert i. induction s as [|a s IH]; intros i H; simpl in H; [lia|].
  destruct i as [|i]; [eexists; reflexivity|]. simpl. apply IH. lia.
Qed.

Lemma string_get_ge (s : string) (i : nat) :
  (String.length s <= i)%nat -> String.get i s = None.
Proof.
  revert i. induction s as [|a s IH]; intros i H; [reflexivity|].
  simpl in H. destruct i as [|i]; [lia|]. simpl. apply IH. lia.
Qed.

Lemma ascii_char_boundary (s : string) (i : nat) :
  (forall j c, String.get j s = Some c -> (nat_of_ascii c < 128)%nat) ->
  (i <= String.length s)%nat -> is_char_boundary s i = true.
Proof.
  intros Hs Hi. unfold is_char_boundary.
  destruct (Nat.eqb_spec i 0) as [->|Hi0]; [reflexivity|].
  destruct (Nat.lt_ge_cases i (String.length s)) as [Hlt|Hge].
  - destruct (string_get_lt s i Hlt) as [c Hc]. rewrite Hc.
    apply Hs in Hc. apply Nat.ltb_lt in Hc. rewrite Hc. reflexivity.
  - rewrite (string_get_ge s i Hge). apply Nat.eqb_eq. lia.
Qed.

Lemma str_slice_ascii (s : string) (b e : nat) :
  (forall j c, String.get j s = Some c -> (nat_of_ascii c < 128)%nat) ->
  (b <= e)%nat -> (e <= String.length s)%nat ->
  str_slice s b e = Some (substring b (e - b) s).
Proof.
  intros Hs Hbe Hel. unfold str_slice.
  rewrite (ascii_char_boundary s b Hs) by lia.
  rewrite (ascii_char_boundary s e Hs) by lia.
  apply Nat.leb_le in Hbe. rewrite Hbe. reflexivity.
Qed.

(** X1: ASCII queries: the signing input is the query itself up to 20 bytes,
    and otherwise its first 10 bytes, its length in decimal and its last
    10 bytes; it never panics. *)
Theorem sign_input_ascii (query : string) :
  (forall j c, String.get j query = Some c -> (nat_of_ascii c < 128)%nat) ->
  sign_input query =
  Some (if (String.length query <=? 20)%nat then query
        else substring 0 10 query ++ usize_to_string (String.length query) ++
             substring (String.length query - 10) 10 query).
Proof.
  intros Hs. unfold sign_input.
  destruct (Nat.leb_spec (String.length query) 20) as [Hle|Hgt]; [reflexivity|].
  rewrite (str_slice_ascii query 0 10 Hs) by lia.
  rewrite (str_slice_ascii query (String.length query - 10) (String.length query) Hs) by lia.
  replace (String.length query - (String.length query - 10))%nat with 10%nat by lia.
  reflexivity.
Qed.

Lemma sign_input_panics (query : string) (b : ascii) :
  (20 < String.length query)%nat -> String.get 10 query = Some b ->
  (128 <= nat_of_ascii b < 192)%nat ->
  sign_input query = None.
Proof.
  intros Hlen Hb Hrange. unfold sign_input.
  destruct (Nat.leb_spec (String.length query) 20) as [Hle|_]; [lia|].
  unfold str_slice at 1. unfold is_char_boundary at 2. simpl Nat.eqb. cbv iota.
  rewrite Hb.
  replace ((nat_of_ascii b <? 128) || (192 <=? nat_of_ascii b))%nat with false.
  - rewrite !andb_false_r. reflexivity.
  - symmetry. apply orb_false_iff. split; [apply Nat.ltb_ge | apply Nat.leb_gt]; lia.
Qed.

Lemma response_found_cond (l1 : list string) (o : option string) (l2 : list (string * string)) :
  (negb (is_empty l1) || negb (is_none o) || negb (is_empty l2)) = true <->
  (l1 <> [] \/ o <> None \/ l2 <> []).
Proof. destruct l1, o, l2; simpl; split; intuition congruence. Qed.

Lemma youdao_result_shape (q : string) (response : Youdao.YoudaoResponse) (r : QueryResult) :
  youdao_result q response = Ok r ->
  Youdao.error_code response = "0" /\
  query r = q /\ source r = Online Youdao /\ is_long_text r = false /\
  pronunciation_us r = None /\ pronunciation_uk r = None /\
  collins_items r = [] /\ collins_rank r = None /\ cached_at r = None /\
  (found r = true <-> (translations r <> [] \/ pronunciation r <> None \/ examples r <> [])).
Proof.
  unfold youdao_result.
  destruct (String.eqb_spec (Youdao.error_code response) "0") as [Hc|Hc]; simpl; [|discriminate].
  destruct (Youdao.translations response) as [tr|];
  destruct (Youdao.basic response) as [[ph [ex|]]|];
  destruct (Youdao.web_translations response) as [web|]; simpl.
  all: try match goal with |- (if ?c then _ else _) = _ -> _ => destruct c eqn:Hf end.
  all: intros H; injection H as <-; simpl in *.
  all: (split; [exact Hc|]); repeat (split; [reflexivity|]).
  all: first [ split; [intros _; apply response_found_cond; assumption | reflexivity]
             | split; [discriminate | intros Hp; apply response_found_cond in Hp; simpl in Hp; congruence] ].
Qed.

Section YoudaoFacts.
Variable new_salt : string.
Variable now_secs : Result nat KdError.
Variable sha256_hex : string -> string.
Variable youdao_get : list (string * string) -> Result Youdao.YoudaoResponse KdError.

Local Abbreviation qy := (query_youdao_impl new_salt now_secs sha256_hex youdao_get).

(** X2: without an API ID or an API key [query_youdao_impl] returns a
    [Config] error, before it reads the clock or sends anything. *)
Theorem query_youdao_impl_requires_credentials (config : YoudaoConfig) (query : string) :
  unwrap_or_empty (api_id config) = "" \/ unwrap_or_empty (api_key config) = "" ->
  exists msg, qy config query = Some (Err (Config msg)).
Proof.
  intros H. unfold query_youdao_impl.
  destruct (String.eqb_spec (unwrap_or_empty (api_id config)) "") as [Hi|Hi];
    [eexists; reflexivity|].
  destruct (String.eqb_spec (unwrap_or_empty (api_key config)) "") as [Hk|Hk];
    [eexists; reflexivity|].
  destruct H; contradiction.
Qed.

(** X3: with both credentials and a clock, a query longer than 20 bytes
    whose byte 10 is a UTF-8 continuation byte makes [query_youdao_impl]
    panic ([&query[0..10]] cuts a character) before any request. *)
Theorem query_youdao_impl_panics (config : YoudaoConfig) (query : string) (secs : nat) (b : ascii) :
  unwrap_or_empty (api_id config) <> "" -> unwrap_or_empty (api_key config) <> "" ->
  now_secs = Ok secs ->
  (20 < String.length query)%nat -> String.get 10 query = Some b ->
  (128 <= nat_of_ascii b < 192)%nat ->
  qy config query = None.
Proof.
  intros Hi Hk Hn Hlen Hb Hr. unfold query_youdao_impl.
  apply String.eqb_neq in Hi, Hk. rewrite Hi, Hk, Hn.
  rewrite (sign_input_panics query b Hlen Hb Hr). reflexivity.
Qed.

(** X4: a successful [query_youdao_impl] sent one request, signed with the
    SHA-256 of API ID, signing input, salt, time and API key, whose answer
    had [errorCode = "0"]; the record is for the query, [Online Youdao],
    not long text, without the US/UK, Collins and [cached_at] fields, and
    [found] holds exactly when it has translations, a pronunciation or
    examples. *)
Theorem query_youdao_impl_result (config : YoudaoConfig) (q : string) (r : QueryResult) :
  qy config q = Some (Ok r) ->
  (exists secs input response,
     now_secs = Ok secs /\ sign_input q = Some input /\
     youdao_get [("q", q); ("from", "auto"); ("to", "auto");
                 ("appKey", unwrap_or_empty (api_id config)); ("salt", new_salt);
                 ("sign", sha256_hex (unwrap_or_empty (api_id config) ++ input ++ new_salt ++
                                      usize_to_string secs ++ unwrap_or_empty (api_key config)));
                 ("signType", "v3"); ("curtime", usize_to_string secs)] = Ok response /\
     Youdao.error_code response = "0") /\
  query r = q /\ source r = Online Youdao /\ is_long_text r = false /\
  pronunciation_us r = None /\ pronunciation_uk r = None /\
  collins_items r = [] /\ collins_rank r = None /\ cached_at r = None /\
  (found r = true <-> (translations r <> [] \/ pronunciation r <> None \/ examples r <> [])).
Proof.
  unfold query_youdao_impl.
  destruct (String.eqb _ _); [discriminate|].
  destruct (String.eqb _ _); [discriminate|].
  destruct now_secs as [secs|e] eqn:Hn; [|discriminate].
  destruct (sign_input q) as [input|] eqn:Hs; [|discriminate].
  match goal with |- match youdao_get ?p with _ => _ end = _ -> _ =>
    destruct (youdao_get p) as [response|e] eqn:Hget end; [|discriminate].
  intros H. injection H as H.
  destruct (youdao_result_shape q response r H) as [Hc Hrest].
  split; [exists secs, input, response; repeat split; assumption | exact Hrest].
Qed.

End YoudaoFacts.

Lemma sign_input_ascii_witness :
  (forall j c, String.get j "abcdefghijklmnopqrstuvwxyz" = Some c -> (nat_of_ascii c < 128)%nat) /\
  sign_input "abcdefghijklmnopqrstuvwxyz" = Some "abcdefghij26qrstuvwxyz".
Proof.
  assert (H : forall j c, String.get j "abcdefghijklmnopqrstuvwxyz" = Some c -> (nat_of_ascii c < 128)%nat).
  { intros j c Hj. do 26 (destruct j as [|j]; [injection Hj as <-; vm_compute; lia|]). discriminate. }
  split; [exact H|]. rewrite (sign_input_ascii _ H). reflexivity.
Defined.

Lemma query_youdao_impl_requires_credentials_witness :
  (unwrap_or_empty (api_id (mkYoudaoConfig None (Some "secret"))) = "" \/
   unwrap_or_empty (api_key (mkYoudaoConfig None (Some "secret"))) = "") /\
  exists msg, query_youdao_impl "salt" (Ok 42%nat) (fun s => s) demo_get
                (mkYoudaoConfig None (Some "secret")) "hello" = Some (Err (Config msg)).
Proof.
  split; [left; reflexivity|]. apply query_youdao_impl_requires_credentials. left; reflexivity.
Defined.

Lemma query_youdao_impl_panics_witness :
  unwrap_or_empty (api_id demo_config) <> "" /\ unwrap_or_empty (api_key demo_config) <> "" /\
  (20 < String.length cjk_query)%nat /\ String.get 10 cjk_query = Some (ascii_of_nat 150) /\
  (128 <= nat_of_ascii (ascii_of_nat 150) < 192)%nat /\
  query_youdao_impl "salt" (Ok 42%nat) (fun s => s) demo_get demo_config cjk_query = None.
Proof.
  split; [discriminate|]. split; [discriminate|].
  split; [vm_compute; lia|]. split; [reflexivity|]. split; [vm_compute; lia|].
  apply (query_youdao_impl_panics _ _ _ _ _ _ 42 (ascii_of_nat 150));
    [discriminate | discriminate | reflexivity | vm_compute; lia | reflexivity | vm_compute; lia].
Defined.

Lemma query_youdao_impl_result_witness :
  query_youdao_impl "salt" (Ok 42%nat) (fun s => s) demo_get demo_config "hello" = Some (Ok demo_result) /\
  source demo_result = Online Youdao /\
  (found demo_result = true <->
   (translations demo_result <> [] \/ pronunciation demo_result <> None \/ examples demo_result <> [])).
Proof.
  assert (H : query_youdao_impl "salt" (Ok 42%nat) (fun s => s) demo_get demo_config "hello"
              = Some (Ok demo_result)) by (vm_compute; reflexivity).
  split; [exact H|].
  destruct (query_youdao_impl_result _ _ _ _ _ _ _ H) as (_ & _ & Hs & _ & _ & _ & _ & _ & _ & Hf).
  split; [exact Hs | exact Hf].
Defined.

Section QueryFacts.
Variable Store : Type.
Variable query_cache : Store -> string -> Result (option QueryResult) KdError.
Variable insert_cache : Store -> string -> QueryResult -> Result Store KdError.
Variable query_youdao : string -> Result QueryResult KdError.
Variable now : Z.

Local Abbreviation qw := (query_word query_cache insert_cache query_youdao now).

Lemma set_source_twice (r : QueryResult) (a b : QuerySource) :
  set_source (set_source r a) b = set_source r b.
Proof. destruct r; reflexivity. Qed.

Lemma query_word_mem_hit (q : string) (long : bool) (s : AppState Store) (c : QueryResult) :
  cache s !! q = Some c ->
  qw q false long s = (Ok (set_source c LocalCache), log_event (MemGet q) s).
Proof. intros Hc. unfold query_word, cache_get, mbind, StM_bind, mret, StM_ret. simpl. rewrite Hc. reflexivity. Qed.

(** X5: after a successful lookup with the caches on, the next lookup of
    the same query with the caches on is answered from the memory cache
    with the same record marked [LocalCache], and touches nothing else;
    unless the answer came from the provider with [found = false], in which
    case neither cache was changed. *)
Theorem query_word_memoizes (q : string) (long long' : bool) (s s' : AppState Store) (r : QueryResult) :
  qw q false long s = (Ok r, s') ->
  qw q false long' s' = (Ok (set_source r LocalCache), log_event (MemGet q) s') \/
  (found r = false /\ cache s' = cache s /\ db s' = db s /\ cache s !! q = None).
Proof.
  intros H.
  destruct (cache s !! q) as [c|] eqn:Hc.
  - rewrite (query_word_mem_hit q long s c Hc) in H. injection H as <- <-.
    left. rewrite set_source_twice. apply query_word_mem_hit. exact Hc.
  - unfold query_word, db_step, online_step, cache_get, cache_insert, db_query,
      db_insert, remote_fetch, log_event, mbind, StM_bind, mret, StM_ret in H.
    simpl in H. rewrite Hc in H. simpl in H.
    destruct (query_cache (db s) q) as [[c|]|e]; simpl in H; [| |discriminate].
    + left. assert (Hr : set_source r LocalCache = set_source c LocalCache).
      { destruct (is_online (source c)); injection H as <- _; [reflexivity|apply set_source_twice]. }
      rewrite Hr. destruct (is_online (source c)); injection H as _ <-;
        (rewrite query_word_mem_hit with (c := c); [reflexivity | simpl; apply lookup_insert_eq]).
    + destruct (query_youdao q) as [p|e]; simpl in H; [|discriminate].
      destruct (found (if long then set_is_long_text p true else p)) eqn:Hf; simpl in H.
      * destruct (insert_cache _ q _) as [d|e] eqn:Hi; simpl in H; [|discriminate].
        injection H as <- <-. left.
        rewrite query_word_mem_hit with (c := set_cached_at (if long then set_is_long_text p true else p) (Some now));
          [reflexivity | simpl; apply lookup_insert_eq].
      * injection H as <- <-. right. simpl. repeat split; auto.
Qed.

(** X6: a lookup of [q] changes no memory-cache entry of another query, and
    the store either stays as it was or is the store after [insert_cache]
    of a found record under [q]. *)
Theorem query_word_frame (q : string) (no_cache long : bool) (s s' : AppState Store) res :
  qw q no_cache long s = (res, s') ->
  (forall q', q' <> q -> cache s' !! q' = cache s !! q') /\
  (db s' = db s \/ exists r, found r = true /\ insert_cache (db s) q r = Ok (db s')).
Proof.
  intros H. unfold_lookup.
  destruct no_cache; simpl in H;
  [|destruct (cache s !! q) as [c|]; simpl in H;
    [|destruct (query_cache (db s) q) as [[c|]|e]; simpl in H]].
  all: try (injection H as <- <-; split; [intros q' Hq; simpl; rewrite ?lookup_insert_ne by congruence; reflexivity | left; reflexivity]).
  all: destruct (query_youdao q) as [p|e]; simpl in H.
  all: repeat match type of H with
       | context [if ?b then _ else _] => destruct b eqn:?
       | context [insert_cache ?a ?b ?c] => destruct (insert_cache a b c) eqn:?
       end; simpl in H; injection H as <- <-.
  all: (split; [intros q' Hq; simpl; rewrite ?lookup_insert_ne by congruence; reflexivity|]).
  all: first [left; reflexivity | right; eexists; split; [|eassumption]; assumption].
Qed.
End QueryFacts.

Lemma query_word_memoizes_witness :
  let run := query_word (query_cache_impl frame_decode) (insert_cache_impl frame_encode 0)
               youdao_stub 0 "cat" false true (init_state empty_conn) in
  run = (Ok fresh_cat, snd run) /\
  query_word (query_cache_impl frame_decode) (insert_cache_impl frame_encode 0)
    youdao_stub 0 "cat" false false (snd run) =
  (Ok (set_source fresh_cat LocalCache), log_event (MemGet "cat") (snd run)).
Proof.
  intros run. assert (H : run = (Ok fresh_cat, snd run)) by (vm_compute; reflexivity).
  split; [exact H|].
  destruct (query_word_memoizes _ _ _ _ _ _ _ false _ _ _ H) as [H2 | [Hf _]];
    [exact H2 | vm_compute in Hf; discriminate].
Defined.

Lemma query_word_frame_witness :
  let run := query_word (query_cache_impl frame_decode) (insert_cache_impl frame_encode 0)
               youdao_stub 0 "cat" false true (init_state stored_conn) in
  run = (fst run, snd run) /\
  (cache (snd run) : gmap string QueryResult) !! "dog" = (cache (init_state stored_conn) : gmap string QueryResult) !! "dog".
Proof.
  intros run. assert (H : run = (fst run, snd run)) by reflexivity.
  split; [exact H|].
  destruct (query_word_frame _ _ _ _ _ _ _ _ _ _ _ H) as [Hc _].
  apply Hc. discriminate.
Defined.

Lemma exec_all_filter (now : Z) (db : Connection) (ps : list (string * bytes * nat * nat)) :
  exec_all now db ps =
  (length (List.filter (fun p => exec_ok db (prepared_key p)) ps),
   fold_left (put_prepared now) (List.filter (fun p => exec_ok db (prepared_key p)) ps) (rows db)).
Proof.
  unfold exec_all.
  match goal with |- fold_left ?f _ _ = _ => remember f as step eqn:Estep end.
  assert (G : forall n rs,
            fold_left step ps (n, rs) =
            ((n + length (List.filter (fun p => exec_ok db (prepared_key p)) ps))%nat,
             fold_left (put_prepared now) (List.filter (fun p => exec_ok db (prepared_key p)) ps) rs)).
  { induction ps as [|p ps IH]; intros n rs; simpl; [f_equal; lia|].
    destruct p as [[[q c] cl] ol]. simpl.
    destruct (exec_ok db q) eqn:Hq.
    - replace (step (n, rs) (q, c, cl, ol)) with (S n, put_prepared now rs (q, c, cl, ol))
        by (subst step; simpl; rewrite Hq; reflexivity).
      rewrite IH. simpl. f_equal. lia.
    - replace (step (n, rs) (q, c, cl, ol)) with (n, rs)
        by (subst step; simpl; rewrite Hq; reflexivity).
      exact (IH n rs). }
  rewrite G. reflexivity.
Qed.

Lemma fold_put_notin (now : Z) (ps : list (string * bytes * nat * nat)) (rs : gmap string Row) (k : string) :
  ~ In k (map prepared_key ps) -> fold_left (put_prepared now) ps rs !! k = rs !! k.
Proof.
  revert rs. induction ps as [|p ps IH]; intros rs Hk; [reflexivity|].
  simpl in Hk. simpl. rewrite IH by tauto.
  destruct p as [[[q c] cl] ol]. simpl in Hk |- *. apply lookup_insert_ne. intros ->. tauto.
Qed.

Lemma filter_map_app {A B} (f : A -> option B) (l1 l2 : list A) :
  filter_map f (l1 ++ l2) = (filter_map f l1 ++ filter_map f l2)%list.
Proof. induction l1 as [|x l1 IH]; simpl; [reflexivity|]. destruct (f x); simpl; rewrite IH; reflexivity. Qed.

Lemma prepared_keys_in (zstd_encode_all : bytes -> option bytes) (items : list (string * QueryResult)) (k : string) :
  In k (map prepared_key (filter_map (prepare_item zstd_encode_all) items)) -> In k (map fst items).
Proof.
  induction items as [|it items IH]; simpl; [tauto|].
  destruct (prepare_item zstd_encode_all it) as [p|] eqn:Hp; simpl.
  - rewrite (prepare_item_key zstd_encode_all it p Hp). tauto.
  - tauto.
Qed.

Lemma filter_keys_in (f : string * bytes * nat * nat -> bool) (ps : list (string * bytes * nat * nat)) (k : string) :
  In k (map prepared_key (List.filter f ps)) -> In k (map prepared_key ps).
Proof.
  induction ps as [|p ps IH]; simpl; [tauto|]. destruct (f p); simpl; tauto.
Qed.

Lemma batch_insert_rows (zstd_encode_all : bytes -> option bytes) (now : Z) (db db' : Connection)
  (items : list (string * QueryResult)) (n : nat) :
  batch_insert_cache_impl zstd_encode_all now db items = (Ok n, db') ->
  let ok := List.filter (fun p => exec_ok db (prepared_key p)) (filter_map (prepare_item zstd_encode_all) items) in
  n = length ok /\ io_ok db' = io_ok db /\ rows db' = fold_left (put_prepared now) ok (rows db).
Proof.
  unfold batch_insert_cache_impl. rewrite exec_all_filter.
  destruct (filter_map (prepare_item zstd_encode_all) items) as [|p ps] eqn:E; simpl.
  - intros H. injection H as <- <-. auto.
  - destruct (io_ok db) eqn:Hio; simpl; [|discriminate].
    destruct (commit_ok db); intros H; [|discriminate].
    injection H as <- <-. simpl. rewrite Hio. auto.
Qed.

(** X7: the count [batch_insert_cache_impl] returns is the number of statements
    that ran, never more than the encodable items. *)
Theorem batch_insert_count (zstd_encode_all : bytes -> option bytes) (now : Z) (db db' : Connection)
  (items : list (string * QueryResult)) (n : nat) :
  batch_insert_cache_impl zstd_encode_all now db items = (Ok n, db') ->
  n = length (List.filter (fun p => exec_ok db (prepared_key p))
                (filter_map (prepare_item zstd_encode_all) items)) /\
  (n <= length items - encode_failures zstd_encode_all items)%nat.
Proof.
  intros H. destruct (batch_insert_rows _ _ _ _ _ _ H) as [Hn _].
  split; [exact Hn|].
  pose proof (filter_map_length (prepare_item zstd_encode_all) items) as Hl.
  pose proof (List.filter_length_le (fun p => exec_ok db (prepared_key p))
                (filter_map (prepare_item zstd_encode_all) items)) as Hf.
  unfold encode_failures. lia.
Qed.

(** X8: a successful batch insert leaves what [query_cache] returns for a
    key outside the batch unchanged. *)
Theorem batch_insert_other_keys (zstd_encode_all zstd_decode_all : bytes -> option bytes) (now : Z)
  (db db' : Connection) (items : list (string * QueryResult)) (n : nat) (k : string) :
  batch_insert_cache_impl zstd_encode_all now db items = (Ok n, db') ->
  ~ In k (map fst items) ->
  query_cache_impl zstd_decode_all db' k = query_cache_impl zstd_decode_all db k.
Proof.
  intros H Hk. destruct (batch_insert_rows _ _ _ _ _ _ H) as (_ & Hio & Hrows).
  unfold query_cache_impl. rewrite Hio, Hrows, fold_put_notin; [reflexivity|].
  intros Hin. apply filter_keys_in, prepared_keys_in in Hin. contradiction.
Qed.

(** X9: a successful [insert_cache] under [q] leaves what [query_cache]
    returns for every other key unchanged. *)
Theorem insert_cache_other_keys (zstd_encode_all zstd_decode_all : bytes -> option bytes) (now : Z)
  (db db' : Connection) (q k : string) (r : QueryResult) :
  insert_cache_impl zstd_encode_all now db q r = Ok db' -> k <> q ->
  query_cache_impl zstd_decode_all db' k = query_cache_impl zstd_decode_all db k.
Proof.
  intros H Hk. unfold insert_cache_impl, to_vec in H.
  destruct (zstd_encode_all _) as [c|]; [|discriminate].
  destruct (io_ok db) eqn:Hio; [|discriminate].
  destruct (exec_ok db q); [|discriminate].
  simpl in H. injection H as <-.
  unfold query_cache_impl. simpl. rewrite lookup_insert_ne by congruence. reflexivity.
Qed.

Section BatchCodec.
Variable zstd_encode_all : bytes -> option bytes.
Variable zstd_decode_all : bytes -> option bytes.
Variable now : Z.
Hypothesis zstd_lossless :
  forall b c, zstd_encode_all b = Some c -> zstd_decode_all c = Some b.

(** X10: after a successful batch insert, a key reads back the last record
    the batch holds for it ([INSERT OR REPLACE] in order), when that record
    encodes and its statement succeeds. *)
Theorem batch_insert_last_wins (db db' : Connection) (pre post : list (string * QueryResult))
  (q : string) (r : QueryResult) (n : nat) :
  cached_at_in_i64 r ->
  prepare_item zstd_encode_all (q, r) <> None ->
  exec_ok db q = true ->
  ~ In q (map fst post) ->
  batch_insert_cache_impl zstd_encode_all now db (pre ++ (q, r) :: post) = (Ok n, db') ->
  query_cache_impl zstd_decode_all db' q = Ok (Some r).
Proof.
  intros Hr Hp Hex Hpost H.
  destruct (batch_insert_rows _ _ _ _ _ _ H) as (_ & Hio' & Hrows).
  destruct (prepare_item zstd_encode_all (q, r)) as [p|] eqn:Ep; [|contradiction].
  assert (Hio : io_ok db = true).
  { assert (Hne : filter_map (prepare_item zstd_encode_all) (pre ++ (q, r) :: post) <> []).
    { rewrite filter_map_app. cbn [filter_map]. rewrite Ep.
      destruct (filter_map _ pre); discriminate. }
    unfold batch_insert_cache_impl in H.
    destruct (filter_map _ _) as [|p0 ps]; [contradiction|].
    cbn [is_empty negb] in H. destruct (io_ok db); [reflexivity|discriminate]. }
  rewrite filter_map_app in Hrows. cbn [filter_map] in Hrows. rewrite Ep in Hrows.
  rewrite List.filter_app in Hrows. simpl in Hrows.
  pose proof (prepare_item_key _ _ _ Ep) as Hk. simpl in Hk.
  unfold prepare_item, to_vec in Ep.
  destruct (zstd_encode_all _) as [c|] eqn:Ez; [|discriminate].
  injection Ep as <-. simpl in Hrows. rewrite Hex in Hrows.
  unfold query_cache_impl. rewrite Hio', Hio. simpl.
  rewrite Hrows, fold_left_app. simpl.
  rewrite fold_put_notin.
  - rewrite lookup_insert_eq. simpl. rewrite (zstd_lossless _ _ Ez).
    rewrite (from_slice_to_vec r Hr). reflexivity.
  - intros Hin. apply filter_keys_in, prepared_keys_in in Hin. contradiction.
Qed.
End BatchCodec.

Lemma batch_insert_count_witness :
  batch_insert_cache_impl size_limited_encode 0 empty_conn
    [("cat", sample_record); ("dog", QueryResult_new "dog" false); ("owl", QueryResult_new "owl" true)] =
  (Ok 2%nat, snd (batch_insert_cache_impl size_limited_encode 0 empty_conn
    [("cat", sample_record); ("dog", QueryResult_new "dog" false); ("owl", QueryResult_new "owl" true)])) /\
  (2 <= 3 - encode_failures size_limited_encode
          [("cat", sample_record); ("dog", QueryResult_new "dog" false); ("owl", QueryResult_new "owl" true)])%nat.
Proof.
  match goal with |- ?e = (Ok 2%nat, snd ?e) /\ _ =>
    assert (H : e = (Ok 2%nat, snd e)) by (vm_compute; reflexivity) end.
  split; [exact H|].
  exact (proj2 (batch_insert_count _ _ _ _ _ _ H)).
Defined.

Lemma batch_insert_last_wins_witness :
  cached_at_in_i64 sample_record /\ prepare_item frame_encode ("cat", sample_record) <> None /\
  exec_ok empty_conn "cat" = true /\ ~ In "cat" (map fst [("dog", QueryResult_new "dog" false)]) /\
  batch_run = (Ok 3%nat, snd batch_run) /\
  query_cache_impl frame_decode (snd batch_run) "cat" = Ok (Some sample_record).
Proof.
  assert (Hr : cached_at_in_i64 sample_record) by (vm_compute; split; discriminate).
  assert (Hp : prepare_item frame_encode ("cat", sample_record) <> None) by (vm_compute; discriminate).
  assert (Hk : ~ In "cat" (map fst [("dog", QueryResult_new "dog" false)])) by (simpl; intuition discriminate).
  assert (H : batch_run = (Ok 3%nat, snd batch_run)) by (vm_compute; reflexivity).
  split; [exact Hr|]. split; [exact Hp|]. split; [reflexivity|]. split; [exact Hk|]. split; [exact H|].
  exact (batch_insert_last_wins frame_encode frame_decode 0 frame_lossless empty_conn (snd batch_run)
           [("cat", QueryResult_new "cat" false)] [("dog", QueryResult_new "dog" false)] "cat" sample_record 3
           Hr Hp eq_refl Hk H).
Defined.

Lemma batch_insert_other_keys_witness :
  batch_run = (Ok 3%nat, snd batch_run) /\ ~ In "owl" (map fst batch_items) /\
  query_cache_impl frame_decode (snd batch_run) "owl" = query_cache_impl frame_decode empty_conn "owl".
Proof.
  assert (H : batch_run = (Ok 3%nat, snd batch_run)) by (vm_compute; reflexivity).
  assert (Hk : ~ In "owl" (map fst batch_items)) by (simpl; intuition discriminate).
  split; [exact H|]. split; [exact Hk|].
  exact (batch_insert_other_keys frame_encode frame_decode 0 empty_conn (snd batch_run) batch_items 3 "owl" H Hk).
Defined.

Lemma insert_cache_other_keys_witness :
  let r := insert_cache_impl frame_encode 0 stored_conn "dog" (QueryResult_new "dog" false) in
  (exists d, r = Ok d /\
     query_cache_impl frame_decode d "cat" = query_cache_impl frame_decode stored_conn "cat") /\
  ("cat" <> "dog").
Proof.
  intros r.
  assert (Hne : "cat" <> "dog") by discriminate.
  split; [|exact Hne].
  destruct r as [d|e] eqn:Hr; unfold r in Hr.
  - exists d. split; [reflexivity|]. exact (insert_cache_other_keys _ _ _ _ _ _ _ _ Hr Hne).
  - vm_compute in Hr. discriminate.
Defined.

(** ** convert_legacy: pronunciations, examples, Collins items *)

Lemma fold_examples_eq (egs : list (string * list (list string))) (r : QueryResult) :
  fold_left (fun result '(_, list_) =>
    set_examples result (push_pairs (examples result) list_)) egs r =
  set_examples r (fold_left (fun acc '(_, list_) => push_pairs acc list_) egs (examples r)).
Proof.
  revert r; induction egs as [|[k l] egs IH]; intros r; simpl.
  - destruct r; reflexivity.
  - rewrite IH. destruct r; reflexivity.
Qed.

Lemma fold_collins_pron (items : list Legacy.CollinsItem) (r : QueryResult) :
  same_pron (fold_left convert_collins_item items r) r /\
  examples (fold_left convert_collins_item items r) = examples r.
Proof.
  revert r; induction items as [|it items IH]; intros r; simpl; [repeat split|].
  destruct (IH (convert_collins_item r it)) as [(H1 & H2 & H3) H4].
  unfold same_pron. rewrite H1, H2, H3, H4.
  unfold convert_collins_item. case_match; repeat split.
Qed.

Lemma fold_collins_content (items : list Legacy.CollinsItem) (r : QueryResult) (c : CollinsDisplayItem) :
  In c (collins_items (fold_left convert_collins_item items r)) ->
  In c (collins_items r) \/ major_trans c <> None \/ item_examples c <> [].
Proof.
  revert r; induction items as [|it items IH]; intros r Hin; simpl in Hin; [left; exact Hin|].
  destruct (IH _ Hin) as [H|H]; [|right; exact H].
  unfold convert_collins_item in H.
  match type of H with context [if ?b then _ else _] => destruct b eqn:Hc end; [|left; exact H].
  simpl in H. apply in_app_or in H as [H|[<-|[]]]; [left; exact H|right].
  simpl. apply orb_true_iff in Hc as [Hc|Hc].
  - left. destruct (Legacy.major_trans it); [discriminate|discriminate Hc].
  - right. destruct (match Legacy.item_examples it with Some egs => push_pairs [] egs | None => [] end);
      [discriminate Hc|discriminate].
Qed.

Lemma fold_collins_length (items : list Legacy.CollinsItem) (r : QueryResult) :
  (length (collins_items (fold_left convert_collins_item items r)) <=
   length (collins_items r) + length items)%nat.
Proof.
  revert r; induction items as [|it items IH]; intros r; simpl; [lia|].
  specialize (IH (convert_collins_item r it)).
  enough (length (collins_items (convert_collins_item r it)) <= S (length (collins_items r)))%nat by lia.
  unfold convert_collins_item. case_match; simpl; rewrite ?length_app; simpl; lia.
Qed.

Lemma convert_pronounce_spec (pron : gmap string string) (r : QueryResult) :
  pronunciation r = None -> pronunciation_us r = None -> pronunciation_uk r = None ->
  let r' := convert_pronounce pron r in
  pronunciation_us r' = match pron !! label_us_primary with Some u => Some u | None => pron !! label_us_alternate end /\
  pronunciation_uk r' = match pron !! label_uk_primary with Some u => Some u | None => pron !! label_uk_alternate end /\
  pronunciation r' = match pronunciation_us r' with Some u => Some u | None => pronunciation_uk r' end.
Proof.
  intros H1 H2 H3. unfold convert_pronounce.
  destruct (pron !! label_us_primary), (pron !! label_us_alternate),
    (pron !! label_uk_primary), (pron !! label_uk_alternate); simpl;
    rewrite ?H1, ?H2, ?H3; simpl; repeat split; try assumption; rewrite ?H2; reflexivity.
Qed.

Lemma push_pairs_in (acc : list (string * string)) (list_ : list (list string)) (a b : string) :
  In (a, b) (push_pairs acc list_) <->
  In (a, b) acc \/ exists rest, In (a :: b :: rest) list_.
Proof.
  revert acc; induction list_ as [|pair list_ IH]; intros acc; simpl.
  - split; [tauto|]. intros [H|[rest []]]. exact H.
  - rewrite IH. destruct pair as [|x [|y rest]].
    + split; [intros [H|[rest' H]]; [tauto|right; exists rest'; tauto]|].
      intros [H|[rest' [H|H]]]; [tauto|discriminate|right; exists rest'; exact H].
    + split; [intros [H|[rest' H]]; [tauto|right; exists rest'; tauto]|].
      intros [H|[rest' [H|H]]]; [tauto|discriminate|right; exists rest'; exact H].
    + rewrite in_app_iff. simpl. split.
      * intros [[H|[H|[]]]|[rest' H]].
        -- left; exact H.
        -- injection H as <- <-. right. exists rest. left. reflexivity.
        -- right; exists rest'; right; exact H.
      * intros [H|[rest' [H|H]]].
        -- left; left; exact H.
        -- injection H as <- <- <-. left; right; left; reflexivity.
        -- right; exists rest'; exact H.
Qed.

Lemma fold_pairs_in (egs : list (string * list (list string))) (acc : list (string * string)) (a b : string) :
  In (a, b) (fold_left (fun acc '(_, list_) => push_pairs acc list_) egs acc) <->
  In (a, b) acc \/ exists k list_ rest, In (k, list_) egs /\ In (a :: b :: rest) list_.
Proof.
  revert acc; induction egs as [|[k l] egs IH]; intros acc; simpl.
  - split; [tauto|]. intros [H|(k & l & rest & [] & _)]. exact H.
  - rewrite IH, push_pairs_in. split.
    + intros [[H|[rest H]]|(k' & l' & rest & H1 & H2)].
      * left; exact H.
      * right. exists k, l, rest. split; [left; reflexivity|exact H].
      * right. exists k', l', rest. split; [right; exact H1|exact H2].
    + intros [H|(k' & l' & rest & [H1|H1] & H2)].
      * left; left; exact H.
      * injection H1 as <- <-. left; right; exists rest; exact H2.
      * right. exists k', l', rest. split; [exact H1|exact H2].
Qed.

Lemma convert_pronounce_other (pron : gmap string string) (r : QueryResult) :
  examples (convert_pronounce pron r) = examples r /\
  collins_items (convert_pronounce pron r) = collins_items r.
Proof. unfold convert_pronounce. repeat (case_match; simpl); split; reflexivity. Qed.

Lemma convert_legacy_stages (legacy : Legacy.LegacyResult) :
  same_pron (convert_legacy legacy) (legacy_pron_stage legacy) /\
  examples (convert_legacy legacy) =
    match Legacy.examples legacy with
    | Some egs => fold_left (fun acc '(_, list_) => push_pairs acc list_) egs []
    | None => []
    end /\
  (forall c, In c (collins_items (convert_legacy legacy)) -> major_trans c <> None \/ item_examples c <> []) /\
  (length (collins_items (convert_legacy legacy)) <=
     match Legacy.collins legacy with
     | Some co => match Legacy.items co with Some items => length items | None => 0 end
     | None => 0
     end)%nat.
Proof.
  assert (E0 : examples (legacy_pron_stage legacy) = [] /\ collins_items (legacy_pron_stage legacy) = []).
  { unfold legacy_pron_stage. destruct (Legacy.pronounce legacy) as [pron|]; [|split; reflexivity].
    rewrite (proj1 (convert_pronounce_other _ _)), (proj2 (convert_pronounce_other _ _)). split; reflexivity. }
  unfold convert_legacy. fold (legacy_pron_stage legacy).
  destruct E0 as [E1 E2]. set (r0 := legacy_pron_stage legacy) in *. clearbody r0.
  remember (match Legacy.paraphrase legacy with Some para => set_translations r0 para | None => r0 end) as r1 eqn:Er1.
  assert (F1 : same_pron r1 r0 /\ examples r1 = [] /\ collins_items r1 = []).
  { subst r1. destruct (Legacy.paraphrase legacy); repeat split; assumption. }
  clear Er1.
  remember (match Legacy.examples legacy with
            | Some egs => fold_left (fun result '(_, list_) =>
                set_examples result (push_pairs (examples result) list_)) egs r1
            | None => r1 end) as r2 eqn:Er2.
  assert (F2 : same_pron r2 r0 /\
               examples r2 = match Legacy.examples legacy with
                             | Some egs => fold_left (fun acc '(_, list_) => push_pairs acc list_) egs []
                             | None => [] end /\ collins_items r2 = []).
  { destruct F1 as ((A1 & A2 & A3) & F1b & F1c). subst r2.
    destruct (Legacy.examples legacy) as [egs|]; [rewrite fold_examples_eq, F1b|];
      repeat split; simpl; assumption. }
  clear Er2.
  destruct F2 as ((P1 & P2 & P3) & X & C).
  destruct (Legacy.collins legacy) as [co|].
  - remember (match Legacy.rank co with Some rank => set_collins_rank r2 (Some rank) | None => r2 end) as r3 eqn:Er3.
    assert (F3 : same_pron r3 r0 /\ examples r3 = examples r2 /\ collins_items r3 = []).
    { subst r3. destruct (Legacy.rank co); repeat split; assumption. }
    clear Er3. destruct F3 as ((Q1 & Q2 & Q3) & Y & D).
    destruct (Legacy.items co) as [items|].
    + destruct (fold_collins_pron items r3) as ((R1 & R2 & R3) & Z).
      split; [|split; [|split]]; simpl.
      * repeat split; simpl; congruence.
      * congruence.
      * intros c Hc. apply fold_collins_content in Hc as [Hc|Hc]; [|exact Hc].
        rewrite D in Hc. destruct Hc.
      * pose proof (fold_collins_length items r3) as L. rewrite D in L. simpl in L. exact L.
    + split; [|split; [|split]]; simpl.
      * repeat split; simpl; congruence.
      * congruence.
      * rewrite D. intros c [].
      * rewrite D. simpl. lia.
  - split; [|split; [|split]]; simpl.
    * repeat split; simpl; congruence.
    * exact X.
    * rewrite C. intros c [].
    * rewrite C. simpl. lia.
Qed.

(** X11: [convert_legacy] takes the US pronunciation from ["美"], else from
    ["us"], the UK one from ["英"], else from ["uk"], and the main
    pronunciation is the US one when there is one, else the UK one. *)
Theorem convert_legacy_pronunciation (legacy : Legacy.LegacyResult) :
  let r := convert_legacy legacy in
  pronunciation_us r =
    match Legacy.pronounce legacy with
    | Some pron => match pron !! label_us_primary with Some u => Some u | None => pron !! label_us_alternate end
    | None => None
    end /\
  pronunciation_uk r =
    match Legacy.pronounce legacy with
    | Some pron => match pron !! label_uk_primary with Some u => Some u | None => pron !! label_uk_alternate end
    | None => None
    end /\
  pronunciation r = match pronunciation_us r with Some u => Some u | None => pronunciation_uk r end.
Proof.
  intros r. destruct (convert_legacy_stages legacy) as ((P1 & P2 & P3) & _).
  unfold r. rewrite P1, P2, P3. unfold legacy_pron_stage.
  destruct (Legacy.pronounce legacy) as [pron|].
  - apply convert_pronounce_spec; reflexivity.
  - repeat split.
Qed.

(** X12: the examples of [convert_legacy] are exactly the first two entries
    of the legacy example lists that have at least two entries. *)
Theorem convert_legacy_examples_in (legacy : Legacy.LegacyResult) (a b : string) :
  In (a, b) (examples (convert_legacy legacy)) <->
  exists egs k list_ rest,
    Legacy.examples legacy = Some egs /\ In (k, list_) egs /\ In (a :: b :: rest) list_.
Proof.
  destruct (convert_legacy_stages legacy) as (_ & X & _). rewrite X.
  destruct (Legacy.examples legacy) as [egs|].
  - rewrite fold_pairs_in. split.
    + intros [[]|(k & l & rest & H1 & H2)]. exists egs, k, l, rest. auto.
    + intros (egs' & k & l & rest & E & H1 & H2). injection E as <-. right. exists k, l, rest. auto.
  - split; [intros []|]. intros (egs' & k & l & rest & E & _). discriminate.
Qed.

(** X13: every Collins item [convert_legacy] keeps has a main translation or
    an example, and there are at most as many as legacy Collins items. *)
Theorem convert_legacy_collins_items (legacy : Legacy.LegacyResult) :
  (forall c, In c (collins_items (convert_legacy legacy)) ->
     major_trans c <> None \/ item_examples c <> []) /\
  (length (collins_items (convert_legacy legacy)) <=
     match Legacy.collins legacy with
     | Some co => match Legacy.items co with Some items => length items | None => 0 end
     | None => 0
     end)%nat.
Proof. destruct (convert_legacy_stages legacy) as (_ & _ & H1 & H2). split; assumption. Qed.

(** ** migrate_data *)

Lemma filter_map_all_some {A B} (f : A -> option B) (l : list A) :
  (forall x, f x <> None) -> length (filter_map f l) = length l.
Proof.
  intros H. induction l as [|x l IH]; [reflexivity|]. simpl.
  destruct (f x) eqn:E; [simpl; rewrite IH; reflexivity|]. exfalso; exact (H x E).
Qed.

Lemma batch_insert_healthy (zstd_encode_all : bytes -> option bytes) (now : Z) (db : Connection)
  (items : list (string * QueryResult)) :
  healthy db -> (forall b, zstd_encode_all b <> None) ->
  fst (batch_insert_cache_impl zstd_encode_all now db items) = Ok (length items) /\
  healthy (snd (batch_insert_cache_impl zstd_encode_all now db items)).
Proof.
  intros (Hio & Hc & Hex) Henc.
  assert (Hp : forall it, prepare_item zstd_encode_all it <> None).
  { intros [q r]. unfold prepare_item, to_vec. specialize (Henc (list_byte_of_string (write_json (ser_query_result r)))).
    destruct (zstd_encode_all _); [discriminate|contradiction]. }
  pose proof (filter_map_all_some _ items Hp) as Hl.
  unfold batch_insert_cache_impl. rewrite exec_all_filter.
  rewrite (List.filter_ext _ (fun _ => true) (fun p => Hex (prepared_key p))), List.filter_true.
  destruct (filter_map (prepare_item zstd_encode_all) items) as [|p ps] eqn:E.
  - simpl in Hl |- *. rewrite <- Hl. repeat split; assumption.
  - cbn [is_empty negb]. rewrite Hio, Hc. simpl. rewrite <- Hl. repeat split; assumption.
Qed.

Section MigrationFacts.
Variable zlib_decode : bytes -> option bytes.
Variable legacy_from_slice : bytes -> option Legacy.LegacyResult.
Variable zstd_encode_all : bytes -> option bytes.
Variable now : Z.
Hypothesis encode_ok : forall b, zstd_encode_all b <> None.

Local Abbreviation step := (migrate_row zlib_decode legacy_from_slice (batch_insert_cache_impl zstd_encode_all now)).
Local Abbreviation dec := (row_decodes zlib_decode legacy_from_slice).

Lemma migrate_rows_healthy (rows_ : list (string * bytes)) (st : MigrationState) :
  healthy (target st) ->
  let st' := fold_left step rows_ st in
  (count st' + length (batch st') = count st + length (batch st) + length (List.filter dec rows_))%nat /\
  (error_count st' = error_count st + length (List.filter (fun row => negb (dec row)) rows_))%nat /\
  healthy (target st').
Proof.
  revert st. induction rows_ as [|[q bs] rows_ IH]; intros st Hh.
  - cbn [fold_left List.filter length]. split; [lia|split; [lia|exact Hh]].
  - assert (Hd : dec (q, bs) = negb (is_none (legacy_from_slice (match zlib_decode bs with Some d => d | None => bs end))))
      by reflexivity.
    cbn [fold_left List.filter]. rewrite Hd.
    remember (step st (q, bs)) as st1 eqn:Est1.
    unfold migrate_row in Est1.
    destruct (legacy_from_slice (match zlib_decode bs with Some d => d | None => bs end)) as [l|] eqn:Ed;
      cbn [is_none negb length].
    + destruct (BATCH_SIZE <=? length (batch st ++ [(q, convert_legacy l)]))%nat.
      * destruct (batch_insert_healthy zstd_encode_all now (target st) (batch st ++ [(q, convert_legacy l)]) Hh encode_ok)
          as [Hn Hh'].
        destruct (batch_insert_cache_impl zstd_encode_all now (target st) (batch st ++ [(q, convert_legacy l)]))
          as [[n|e] t]; simpl in Hn, Hh'; [|discriminate].
        injection Hn as ->. subst st1.
        match goal with |- context [fold_left _ _ ?X] => destruct (IH X Hh') as (H1 & H2 & H3) end. simpl in H1, H2.
        rewrite ?length_app in *. simpl in H1, H2 |- *. split; [lia|split; [lia|exact H3]].
      * subst st1. match goal with |- context [fold_left _ _ ?X] => destruct (IH X Hh) as (H1 & H2 & H3) end. simpl in H1, H2.
        rewrite ?length_app in *. simpl in H1, H2 |- *. split; [lia|split; [lia|exact H3]].
    + subst st1. match goal with |- context [fold_left _ _ ?X] => destruct (IH X Hh) as (H1 & H2 & H3) end. simpl in H1, H2. split; [lia|split; [lia|exact H3]].
Qed.

(** X14: with an encoder that never fails and a target on which every
    statement and the commit succeed, migrating a table counts every
    decodable row as inserted and every other row as one error. *)
Theorem migrate_table_accounting (target_conn : Connection) (rows_ : list (string * bytes)) :
  healthy target_conn ->
  let st := migrate_table zlib_decode legacy_from_slice (batch_insert_cache_impl zstd_encode_all now)
              target_conn rows_ in
  count st = length (List.filter dec rows_) /\
  error_count st = length (List.filter (fun row => negb (dec row)) rows_).
Proof.
  intros Hh st. unfold st, migrate_table. clear st. cbv zeta.
  destruct (is_empty rows_) eqn:Ee.
  { destruct rows_; [split; reflexivity|discriminate]. }
  destruct (migrate_rows_healthy rows_ {| count := 0; error_count := 0; batch := []; target := target_conn |} Hh)
    as (H1 & H2 & H3).
  set (s := fold_left step rows_ _) in *. clearbody s. simpl in H1, H2.
  unfold flush_remaining.
  destruct (batch s) as [|p ps] eqn:Eb.
  - simpl in H1 |- *. split; lia.
  - cbn [is_empty negb].
    destruct (batch_insert_healthy zstd_encode_all now (target s) (p :: ps) H3 encode_ok) as [Hn _].
    destruct (batch_insert_cache_impl zstd_encode_all now (target s) (p :: ps)) as [[n|e] t];
      simpl in Hn |- *; [|discriminate].
    injection Hn as ->. simpl in H1. split; lia.
Qed.
End MigrationFacts.

(** X15: the pending batch of the migration loop stays below [BATCH_SIZE]:
    a full batch is written and emptied at once, so the final flush gets
    fewer than [BATCH_SIZE] records. *)
Theorem migrate_rows_batch_bound (zlib_decode : bytes -> option bytes)
  (legacy_from_slice : bytes -> option Legacy.LegacyResult)
  (batch_insert_cache : Connection -> list (string * QueryResult) -> Result nat KdError * Connection)
  (rows_ : list (string * bytes)) (st : MigrationState) :
  (length (batch st) < BATCH_SIZE)%nat ->
  (length (batch (fold_left (migrate_row zlib_decode legacy_from_slice batch_insert_cache) rows_ st))
     < BATCH_SIZE)%nat.
Proof.
  revert st. induction rows_ as [|[q bs] rows_ IH]; intros st Hb; [exact Hb|].
  cbn [fold_left]. apply IH. unfold migrate_row.
  destruct (legacy_from_slice _); [|exact Hb].
  destruct (BATCH_SIZE <=? length (batch st ++ [(q, convert_legacy l)]))%nat eqn:E.
  - destruct (batch_insert_cache _ _) as [[n|e] t]; simpl; unfold BATCH_SIZE; lia.
  - apply Nat.leb_gt in E. exact E.
Qed.

Lemma migrate_table_accounting_witness :
  (forall b, frame_encode b <> None) /\ healthy empty_conn /\
  let st := migrate_table (fun _ => None) nonempty_legacy (batch_insert_cache_impl frame_encode 0)
              empty_conn mixed_rows in
  count st = 2%nat /\ error_count st = 1%nat.
Proof.
  assert (He : forall b, frame_encode b <> None) by (intros b; discriminate).
  assert (Hh : healthy empty_conn) by (split; [reflexivity|split; [reflexivity|intros q; reflexivity]]).
  split; [exact He|]. split; [exact Hh|].
  exact (migrate_table_accounting (fun _ => None) nonempty_legacy frame_encode 0 He empty_conn mixed_rows Hh).
Defined.

Lemma migrate_rows_batch_bound_witness :
  (length (batch {| count := 0; error_count := 0; batch := []; target := empty_conn |}) < BATCH_SIZE)%nat /\
  (length (batch (fold_left (migrate_row (fun _ => None) nonempty_legacy (batch_insert_cache_impl frame_encode 0))
     mixed_rows {| count := 0; error_count := 0; batch := []; target := empty_conn |})) < BATCH_SIZE)%nat.
Proof.
  assert (H : (length (batch {| count := 0; error_count := 0; batch := []; target := empty_conn |}) < BATCH_SIZE)%nat)
    by (vm_compute; lia).
  split; [exact H|]. apply migrate_rows_batch_bound. exact H.
Defined.
